(** * Shallow embedding of sugo-module-serialport

    Two shapes of adapter live in the repository:
    - the function-object variant [sugoModuleSerialport(config)] of
      lib/sugo_module_serialport.js, also copied (positional arguments,
      emitting on [this]) into lib/sugo_interface_serialport.js; its
      connection slot is the module-level [let _serialport = null];
    - the class variant [class Serialport extends Module] of
      lib/serialport.js; its connection slot is the field [s._driver].

    The JavaScript runtime is modelled as a world record threaded through a
    state and exception monad: promises are numbered cells that settle at
    most once, the native driver is an external collaborator whose calls
    are logged and whose asynchronous completions and events are delivered
    by the event loop. *)

From Stdlib Require Import String Ascii List Bool Arith Lia.
Import ListNotations.
Open Scope string_scope.

Module Serial.

(** ** JavaScript values *)

Inductive error :=
| ErrAssert (msg : string)   (* AssertionError thrown by assert.ok *)
| ErrDriver (code : nat)     (* an error object produced by the driver *)
| ErrNew (msg : string).     (* new Error(msg) *)

Definition NOT_CONNECT : string := "Serialport is not connected".

(** Data buffers, options objects and event payloads are opaque here. *)
Definition payload := nat.

Inductive value :=
| VUndef
| VNull
| VBool (b : bool)
| VStr (s : string)
| VPorts (ports : list string).

(** JavaScript truthiness, as used by [||] and [&&]. *)
Definition truthy (v : value) : bool :=
  match v with
  | VUndef | VNull => false
  | VBool b => b
  | VStr s => negb (String.eqb s EmptyString)
  | VPorts _ => true
  end.

Inductive settle :=
| Pending
| Fulfilled (v : value)
| Rejected (e : error).

Inductive event := EData | EError | EClose | EDisconnect | EOpen.

Scheme Equality for event.

(** ['data', 'error', 'close', 'disconnect', 'open'] *)
Definition pipe_events : list event := [EData; EError; EClose; EDisconnect; EOpen].

(** Listeners registered on a driver, defunctionalised:
    [HRelay ev]  is [(data) => pipe.emit(event, data)] (or [s.emit]);
    [HResolve p] is [() => resolve()] of promise [p];
    [HReject p]  is [(err) => reject(err)] of promise [p]. *)
Inductive handler :=
| HRelay (ev : event)
| HResolve (pid : nat)
| HReject (pid : nat).

(** Continuation of the [co] generator of [Serialport#connect] after its
    [yield new Promise(...)]: on fulfilment [s._driver = driver]. *)
Inductive reaction :=
| RCoConnect (outer : nat) (h : nat).

(** Callbacks handed to the driver, defunctionalised. *)
Inductive callback :=
| CbHandleMod (pid : nat)   (* _handle of the function-object variant *)
| CbHandleCls (pid : nat)   (* _handle of the class variant *)
| CbListMod (pid : nat)     (* (err, ports) => { if (err) throw err; resolve(ports) } *)
| CbListCls (pid : nat).    (* (err, ports) => err ? reject(err) : resolve(ports) *)

(** Calls made on the driver library. *)
Inductive dcall :=
| DNew (path : string) (opts : nat)
| DList (cb : callback)
| DOpen (h : nat) (cb : callback)
| DIsOpen (h : nat)
| DWrite (h : nat) (data : nat) (cb : callback)
| DPause (h : nat)
| DResume (h : nat)
| DFlush (h : nat) (cb : callback)
| DDrain (h : nat) (cb : callback)
| DClose (h : nat) (cb : callback)
| DSet (h : nat) (opts : nat) (cb : callback)
| DUpdate (h : nat) (opts : nat) (cb : callback).

(** Invocations of a promise's resolution functions. *)
Inductive rcall :=
| RResolve (pid : nat) (v : value)
| RReject (pid : nat) (e : error).

(** ** The world *)

Record world := mkWorld {
  slot : option nat;                          (* _serialport / s._driver *)
  next_h : nat;                               (* next driver handle *)
  listeners : list (nat * event * handler);   (* driver.on registrations *)
  surface : list (event * payload);           (* pipe.emit / s.emit *)
  dcalls : list dcall;                        (* calls made on the driver *)
  next_pid : nat;                             (* next promise *)
  proms : nat -> settle;                      (* promise states *)
  rlog : list rcall;                          (* resolve/reject invocations *)
  reactions : list (nat * reaction);          (* awaiting a promise *)
  uncaught : list error;                      (* exceptions escaping to the event loop *)
  opened : list nat;                          (* driver handles in the open state *)
  now : nat;                                  (* event loop clock, ms *)
  timers : list (nat * dcall)                 (* setTimeout queue: deadline, driver call *)
}.

Definition upd {A} (f : nat -> A) (k : nat) (v : A) : nat -> A :=
  fun x => if Nat.eqb x k then v else f x.

Definition set_slot_w s w :=
  mkWorld s (next_h w) (listeners w) (surface w) (dcalls w) (next_pid w) (proms w)
    (rlog w) (reactions w) (uncaught w) (opened w) (now w) (timers w).
Definition set_next_h_w n w :=
  mkWorld (slot w) n (listeners w) (surface w) (dcalls w) (next_pid w) (proms w)
    (rlog w) (reactions w) (uncaught w) (opened w) (now w) (timers w).
Definition set_listeners_w l w :=
  mkWorld (slot w) (next_h w) l (surface w) (dcalls w) (next_pid w) (proms w)
    (rlog w) (reactions w) (uncaught w) (opened w) (now w) (timers w).
Definition set_surface_w s w :=
  mkWorld (slot w) (next_h w) (listeners w) s (dcalls w) (next_pid w) (proms w)
    (rlog w) (reactions w) (uncaught w) (opened w) (now w) (timers w).
Definition set_dcalls_w d w :=
  mkWorld (slot w) (next_h w) (listeners w) (surface w) d (next_pid w) (proms w)
    (rlog w) (reactions w) (uncaught w) (opened w) (now w) (timers w).
Definition set_next_pid_w n w :=
  mkWorld (slot w) (next_h w) (listeners w) (surface w) (dcalls w) n (proms w)
    (rlog w) (reactions w) (uncaught w) (opened w) (now w) (timers w).
Definition set_proms_w p w :=
  mkWorld (slot w) (next_h w) (listeners w) (surface w) (dcalls w) (next_pid w) p
    (rlog w) (reactions w) (uncaught w) (opened w) (now w) (timers w).
Definition set_rlog_w r w :=
  mkWorld (slot w) (next_h w) (listeners w) (surface w) (dcalls w) (next_pid w) (proms w)
    r (reactions w) (uncaught w) (opened w) (now w) (timers w).
Definition set_reactions_w r w :=
  mkWorld (slot w) (next_h w) (listeners w) (surface w) (dcalls w) (next_pid w) (proms w)
    (rlog w) r (uncaught w) (opened w) (now w) (timers w).
Definition set_uncaught_w u w :=
  mkWorld (slot w) (next_h w) (listeners w) (surface w) (dcalls w) (next_pid w) (proms w)
    (rlog w) (reactions w) u (opened w) (now w) (timers w).
Definition set_opened_w o w :=
  mkWorld (slot w) (next_h w) (listeners w) (surface w) (dcalls w) (next_pid w) (proms w)
    (rlog w) (reactions w) (uncaught w) o (now w) (timers w).
Definition set_now_w n w :=
  mkWorld (slot w) (next_h w) (listeners w) (surface w) (dcalls w) (next_pid w) (proms w)
    (rlog w) (reactions w) (uncaught w) (opened w) n (timers w).
Definition set_timers_w t w :=
  mkWorld (slot w) (next_h w) (listeners w) (surface w) (dcalls w) (next_pid w) (proms w)
    (rlog w) (reactions w) (uncaught w) (opened w) (now w) t.

(** A world with nothing connected: [let _serialport = null] /
    [s._driver = null]. *)
Definition init_world : world :=
  mkWorld None 0 [] [] [] 0 (fun _ => Pending) [] [] [] [] 0 [].

(** ** State and exception monad *)

Inductive res (A : Type) := Ok (a : A) | Exn (e : error).
Arguments Ok {A} a.
Arguments Exn {A} e.

Definition M (A : Type) := world -> res A * world.

Definition ret {A} (a : A) : M A := fun w => (Ok a, w).
Definition throw {A} (e : error) : M A := fun w => (Exn e, w).
Definition bind {A B} (m : M A) (k : A -> M B) : M B :=
  fun w => match m w with
           | (Ok a, w') => k a w'
           | (Exn e, w') => (Exn e, w')
           end.
Definition modify (f : world -> world) : M unit := fun w => (Ok tt, f w).
Definition gets {A} (f : world -> A) : M A := fun w => (Ok (f w), w).

(** [try { m } catch (e) { k(e) }] *)
Definition try_catch {A} (m : M A) (k : error -> M A) : M A :=
  fun w => match m w with
           | (Exn e, w') => k e w'
           | r => r
           end.

Notation "x <- m ;; k" := (bind m (fun x => k))
  (at level 61, m at next level, right associativity).
Notation "m ;;; k" := (bind m (fun _ : unit => k))
  (at level 61, right associativity).

Fixpoint for_each {A} (f : A -> M unit) (l : list A) : M unit :=
  match l with
  | [] => ret tt
  | x :: l' => f x ;;; for_each f l'
  end.

(** ** Runtime primitives *)

Definition set_slot (s : option nat) : M unit := modify (set_slot_w s).

(** [assert.ok(_serialport, NOT_CONNECT)] followed by a read of the slot;
    the class's [get driver ()] accessor has the same body. *)
Definition assert_slot : M nat :=
  s <- gets slot ;;
  match s with
  | Some h => ret h
  | None => throw (ErrAssert NOT_CONNECT)
  end.

Definition driver_call (c : dcall) : M unit :=
  modify (fun w => set_dcalls_w (dcalls w ++ [c]) w).

(** [port.on(event, listener)] *)
Definition on (h : nat) (ev : event) (hd : handler) : M unit :=
  modify (fun w => set_listeners_w (listeners w ++ [(h, ev, hd)]) w).

(** [pipe.emit(event, data)] / [s.emit(event, data)] *)
Definition pipe_emit (ev : event) (p : payload) : M unit :=
  modify (fun w => set_surface_w (surface w ++ [(ev, p)]) w).

Definition is_settled (s : settle) : bool :=
  match s with Pending => false | _ => true end.

(** A promise's [resolve] and [reject]: every invocation is logged, only the
    first one on a pending promise changes its state. *)
Definition resolve (pid : nat) (v : value) : M unit :=
  modify (fun w =>
    let w1 := set_rlog_w (rlog w ++ [RResolve pid v]) w in
    if is_settled (proms w pid) then w1
    else set_proms_w (upd (proms w) pid (Fulfilled v)) w1).

Definition reject (pid : nat) (e : error) : M unit :=
  modify (fun w =>
    let w1 := set_rlog_w (rlog w ++ [RReject pid e]) w in
    if is_settled (proms w pid) then w1
    else set_proms_w (upd (proms w) pid (Rejected e)) w1).

(** [new Promise((resolve, reject) => executor)]: the executor runs at
    once; an exception it throws rejects the promise. *)
Definition new_promise (exec : nat -> M unit) : M nat :=
  fun w =>
    let pid := next_pid w in
    let w1 := set_proms_w (upd (proms w) pid Pending) (set_next_pid_w (S pid) w) in
    match exec pid w1 with
    | (Ok _, w2) => (Ok pid, w2)
    | (Exn e, w2) => (Ok pid, snd (reject pid e w2))
    end.

(** [co(function * () { body })] for a body without [yield]: its return
    value fulfils the promise, an exception rejects it. *)
Definition co (body : M value) : M nat :=
  new_promise (fun pid => v <- body ;; resolve pid v).

(** [new Driver(path, options)]: [ctor] is the exception the native
    constructor throws, if any. *)
Definition driver_new (path : string) (opts : nat) (ctor : option error) : M nat :=
  driver_call (DNew path opts) ;;;
  match ctor with
  | Some e => throw e
  | None => h <- gets next_h ;; modify (set_next_h_w (S h)) ;;; ret h
  end.

(** [driver.isOpen()] *)
Definition is_open_call (h : nat) : M value :=
  driver_call (DIsOpen h) ;;;
  o <- gets opened ;;
  ret (VBool (existsb (Nat.eqb h) o)).

(** Bodies of the callbacks handed to the driver, run with the driver's
    error-first outcome [err] and result [v]. *)
Definition callback_body (cb : callback) (err : option error) (v : value) : M unit :=
  match cb with
  | CbHandleMod pid =>
      (* if (err) { reject(err) } resolve() *)
      (match err with Some e => reject pid e | None => ret tt end) ;;;
      resolve pid VUndef
  | CbHandleCls pid =>
      (* err ? reject(err) : resolve() *)
      match err with Some e => reject pid e | None => resolve pid VUndef end
  | CbListMod pid =>
      (* if (err) { throw err } resolve(ports) *)
      match err with Some e => throw e | None => resolve pid v end
  | CbListCls pid =>
      (* err ? reject(err) : resolve(ports) *)
      match err with Some e => reject pid e | None => resolve pid v end
  end.

(** A task run by the event loop: an exception escapes to the loop. *)
Definition run_task (m : M unit) (w : world) : world :=
  match m w with
  | (Ok _, w') => w'
  | (Exn e, w') => set_uncaught_w (uncaught w' ++ [e]) w'
  end.

(** The continuation of an awaited promise, once it is settled. *)
Definition run_reaction (r : nat * reaction) : M unit :=
  let '(inner, RCoConnect outer h) := r in
  s <- gets (fun w => proms w inner) ;;
  match s with
  | Fulfilled _ => set_slot (Some h) ;;; resolve outer VUndef
  | Rejected e => reject outer e
  | Pending => ret tt
  end.

(** The microtask checkpoint after a task: reactions of settled promises
    are taken off the queue and run in order. *)
Definition run_reactions (w : world) : world :=
  let ready (r : nat * reaction) := is_settled (proms w (fst r)) in
  run_task (for_each run_reaction (filter ready (reactions w)))
    (set_reactions_w (filter (fun r => negb (ready r)) (reactions w)) w).

(** The driver completes an asynchronous call: its callback runs as a task. *)
Definition deliver (cb : callback) (err : option error) (v : value) (w : world) : world :=
  run_reactions (run_task (callback_body cb err v) w).

Definition run_handler (hd : handler) (p : payload) : M unit :=
  match hd with
  | HRelay ev => pipe_emit ev p
  | HResolve pid => resolve pid VUndef
  | HReject pid => reject pid (ErrDriver p)
  end.

(** [EventEmitter#emit]: the listeners registered for [(h, ev)], in
    registration order, over the listener array as it was at emission. *)
Fixpoint run_listeners (ls : list (nat * event * handler)) (h : nat) (ev : event)
    (p : payload) : M unit :=
  match ls with
  | [] => ret tt
  | (h', ev', hd) :: ls' =>
      (if Nat.eqb h h' && event_beq ev ev' then run_handler hd p else ret tt) ;;;
      run_listeners ls' h ev p
  end.

(** The driver's own open state, as the driver keeps it. *)
Definition driver_state (h : nat) (ev : event) : M unit :=
  match ev with
  | EOpen => modify (fun w => set_opened_w (h :: opened w) w)
  | EClose => modify (fun w => set_opened_w (remove Nat.eq_dec h (opened w)) w)
  | _ => ret tt
  end.

Definition driver_emit (h : nat) (ev : event) (p : payload) : M unit :=
  driver_state h ev ;;;
  ls <- gets listeners ;;
  run_listeners ls h ev p.

(** The driver [h] emits [ev] with [p], as a task of the event loop. *)
Definition dispatch (h : nat) (ev : event) (p : payload) (w : world) : world :=
  run_reactions (run_task (driver_emit h ev p) w).

Fixpoint dispatch_all (h : nat) (tr : list (event * payload)) (w : world) : world :=
  match tr with
  | [] => w
  | (ev, p) :: tr' => dispatch_all h tr' (dispatch h ev p w)
  end.

(** Time passes: timers whose deadline is reached fire, in queue order. *)
Definition elapse (n : nat) (w : world) : world :=
  let t := now w + n in
  let due := filter (fun d => Nat.leb (fst d) t) (timers w) in
  let w1 := set_timers_w (filter (fun d => negb (Nat.leb (fst d) t)) (timers w))
              (set_now_w t w) in
  fold_left (fun w d => run_task (driver_call (snd d)) w) due w1.

(** The promise an operation returns, and the world after its synchronous part. *)
Definition outcome (m : M nat) (w : world) : settle * world :=
  match m w with
  | (Ok pid, w') => (proms w' pid, w')
  | (Exn _, w') => (Pending, w')
  end.

Definition pid_of (m : M nat) (w : world) : nat :=
  match m w with (Ok pid, _) => pid | (Exn _, _) => 0 end.

(** The I/O methods that need a connection. *)
Inductive io_op :=
| OWrite (data : nat) | OClose | OFlush | ODrain | OPause | OResume
| OSet (opts : nat) | OUpdate (opts : nat) | OIsOpen.

(** ** Function-object variant: lib/sugo_module_serialport.js *)

Module Fn.

(** [ping (ctx) { return co(function * () { return params[ 0 ] || 'pong' }) }] *)
Definition ping (params : list value) : M nat :=
  co (ret (let p0 := nth 0 params VUndef in if truthy p0 then p0 else VStr "pong")).

(** [events.forEach(event => port.on(event, (data) => pipe.emit(event, data)))] *)
Definition portsPipe (port : nat) (events : list event) : M unit :=
  for_each (fun ev => on port ev (HRelay ev)) events.

(** [SerialPort (ctx)]: the executor never calls [resolve]. The third
    parameter [openCallback] is not a value a remote caller can send and is
    left out. *)
Definition SerialPort (path : string) (options : nat) (ctor : option error) : M nat :=
  new_promise (fun pid =>
    port <- try_catch (p <- driver_new path options ctor ;; ret (Some p))
                      (fun e => reject pid e ;;; ret None) ;;
    match port with
    | None => ret tt                            (* reject(e); return *)
    | Some port =>
        set_slot (Some port) ;;;                (* _serialport = port *)
        portsPipe port pipe_events
    end).

Definition open : M nat :=
  new_promise (fun pid => h <- assert_slot ;; driver_call (DOpen h (CbHandleMod pid))).

Definition isOpen : M nat :=
  co (h <- assert_slot ;; is_open_call h).

Definition write (data : nat) : M nat :=
  new_promise (fun pid => h <- assert_slot ;; driver_call (DWrite h data (CbHandleMod pid))).

Definition pause : M nat :=
  co (h <- assert_slot ;; driver_call (DPause h) ;;; ret VUndef).

Definition resume : M nat :=
  co (h <- assert_slot ;; driver_call (DResume h) ;;; ret VUndef).

Definition flush : M nat :=
  new_promise (fun pid => h <- assert_slot ;; driver_call (DFlush h (CbHandleMod pid))).

Definition drain : M nat :=
  new_promise (fun pid => h <- assert_slot ;; driver_call (DDrain h (CbHandleMod pid))).

Definition close : M nat :=
  new_promise (fun pid => h <- assert_slot ;; driver_call (DClose h (CbHandleMod pid))).

Definition set (options : nat) : M nat :=
  new_promise (fun pid => h <- assert_slot ;; driver_call (DSet h options (CbHandleMod pid))).

Definition update (options : nat) : M nat :=
  new_promise (fun pid => h <- assert_slot ;; driver_call (DUpdate h options (CbHandleMod pid))).

Definition io (o : io_op) : M nat :=
  match o with
  | OWrite d => write d
  | OClose => close
  | OFlush => flush
  | ODrain => drain
  | OPause => pause
  | OResume => resume
  | OSet x => set x
  | OUpdate x => update x
  | OIsOpen => isOpen
  end.

(** [list (ctx)]: the callback throws the driver's error. Declared last:
    it shadows the type [list] inside this module. *)
Definition list : M nat :=
  new_promise (fun pid => driver_call (DList (CbListMod pid))).

End Fn.

(** ** [assert ()] of the ctx-based variants

    [for (let bin of bins) { let ok = yield hasBin(bin); if (!ok) { throw
    new Error(`[${name}] Command not found: ${bin}`) } } return true]: the
    generator checks the binaries one by one. [hasBin] is the [sg-check]
    library's probe, given here by its outcome on each name; [name] is the
    package name read from package.json. *)

Module Check.

(** What the promise returned by [hasBin(bin)] settles to. *)
Inductive verdict := HResolved (ok : value) | HRejected (e : error).

(** What the promise returned by [assert] settles to. *)
Inductive result :=
| AResolved (b : bool)
| ANotFound (msg : string)          (* the [Error] thrown by the generator *)
| AFailed (e : error).              (* a rejection of [hasBin] rethrown by [co] *)

(** [const bins = [ 'node' ]] *)
Definition bins : list string := ["node"].

Definition not_found (name bin : string) : string :=
  "[" ++ name ++ "] Command not found: " ++ bin.

(** The generator [assertAck]: the binaries probed, in order, and the outcome. *)
Fixpoint assertAck (name : string) (hasBin : string -> verdict) (bins : list string)
    : list string * result :=
  match bins with
  | [] => ([], AResolved true)
  | bin :: rest =>
      match hasBin bin with
      | HRejected e => ([bin], AFailed e)
      | HResolved ok =>
          if truthy ok
          then let '(probed, r) := assertAck name hasBin rest in (bin :: probed, r)
          else ([bin], ANotFound (not_found name bin))
      end
  end.

Definition assert (name : string) (hasBin : string -> verdict) : list string * result :=
  assertAck name hasBin bins.

(** The synchronous part of a call to [assert]: [co] starts [assertAck],
    which calls [hasBin(bins[0])] and suspends at its [yield] ([bins] is
    not empty); the returned promise is pending. *)
Definition start : M nat := new_promise (fun _ => ret tt).

(** The rest of [assertAck], resumed by [co] once the probes have settled:
    the promise [pid] that [assert] returned settles with the generator's
    outcome. *)
Definition finish (name : string) (hasBin : string -> verdict) (pid : nat) : M unit :=
  match snd (assert name hasBin) with
  | AResolved b => resolve pid (VBool b)
  | ANotFound msg => reject pid (ErrNew msg)
  | AFailed e => reject pid e
  end.

End Check.

(** ** Interface copy: lib/sugo_interface_serialport.js

    The second half of the file repeats the function-object variant with
    positional parameters: its I/O method bodies are those of [Fn], its
    [SerialPort] emits on [this] instead of [ctx.pipe] (the same surface
    here), and its [ping] takes a default parameter. The first half of the
    file is the interface factory, whose [ping (ctx)] and [assert (ctx)]
    have the bodies of [Fn.ping] and of [assert]. The [config] argument of
    either factory is only passed to [debug]. *)

Module Iface.

Inductive timeout := TFinite (ms : nat) | TInfinity.

Record config := { cfg_path : option string; cfg_options : option nat;
                   cfg_timeout : option timeout }.

(** [ping (pong = 'pong') { return co(function * () { return pong }) }] *)
Definition ping (arg : value) : M nat :=
  co (ret (match arg with VUndef => VStr "pong" | v => v end)).

(** One call on the objects returned by the two factories of the file,
    [sugoModuleSerialport(config)] (every method but [$spec]) and
    [sugoInterfaceSerialport(config)] ([ping (ctx)] and [assert (ctx)]), or
    an event-loop step between calls. *)
Inductive op :=
| ISerialPort (path : string) (options : nat) (ctor : option error)
| IOpen
| IIo (o : io_op)            (* isOpen, write, pause, resume, flush, drain, close, set, update *)
| IList
| IPing (pong : value)       (* [VUndef]: argument omitted *)
| IAssert
| ICtxPing (params : list value)
| ICtxAssert
| IEmit (h : nat) (ev : event) (p : payload)
| IDeliver (cb : callback) (err : option error) (v : value)
| IProbed (pid : nat) (name : string) (hasBin : string -> Check.verdict)
| IElapse (ms : nat).

(** The probes of an [assert] call settle: the generator resumes as a
    microtask. *)
Definition probed (pid : nat) (name : string) (hasBin : string -> Check.verdict)
    (w : world) : world :=
  run_reactions (run_task (Check.finish name hasBin pid) w).

(** [config] is the argument of [sugoModuleSerialport], [iconfig] that of
    [sugoInterfaceSerialport]. *)
Definition step (config iconfig : config) (o : op) (w : world) : world :=
  match o with
  | ISerialPort path options ctor => snd (Fn.SerialPort path options ctor w)
  | IOpen => snd (Fn.open w)
  | IIo o => snd (Fn.io o w)
  | IList => snd (Fn.list w)
  | IPing pong => snd (ping pong w)
  | IAssert => snd (Check.start w)
  | ICtxPing params => snd (Fn.ping params w)
  | ICtxAssert => snd (Check.start w)
  | IEmit h ev p => dispatch h ev p w
  | IDeliver cb err v => deliver cb err v w
  | IProbed pid name hasBin => probed pid name hasBin w
  | IElapse ms => elapse ms w
  end.

Fixpoint run (config iconfig : config) (ops : list op) (w : world) : world :=
  match ops with
  | [] => w
  | o :: ops' => run config iconfig ops' (step config iconfig o w)
  end.

End Iface.

(** ** Class variant: lib/serialport.js *)

Module Cls.

(** [ping (pong = 'pong')] *)
Definition ping (arg : value) : M nat :=
  co (ret (match arg with VUndef => VStr "pong" | v => v end)).

(** [get driver ()]: [assert.ok(_driver, 'Serialport is not connected')]. *)
Definition driver : M nat := assert_slot.

(** [connect (path, options)]: a [co] generator that builds the driver,
    pipes its events, then yields a promise settled by the driver's first
    ['error'] or ['open']; [s._driver = driver] runs after that yield. *)
Definition connect (path : string) (options : nat) (ctor : option error) : M nat :=
  new_promise (fun outer =>
    d <- driver_new path options ctor ;;
    for_each (fun ev => on d ev (HRelay ev)) pipe_events ;;;
    inner <- new_promise (fun inner =>
               on d EError (HReject inner) ;;; on d EOpen (HResolve inner)) ;;
    modify (fun w => set_reactions_w (reactions w ++ [(inner, RCoConnect outer d)]) w)).

Definition open : M nat :=
  new_promise (fun pid => h <- driver ;; driver_call (DOpen h (CbHandleCls pid))).

(** [return _driver && _driver.isOpen()] *)
Definition isOpen : M nat :=
  co (d <- gets slot ;;
      match d with
      | None => ret VNull
      | Some h => is_open_call h
      end).

Definition write (data : nat) : M nat :=
  new_promise (fun pid => h <- driver ;; driver_call (DWrite h data (CbHandleCls pid))).

Definition pause : M nat :=
  co (h <- driver ;; driver_call (DPause h) ;;; ret VUndef).

Definition resume : M nat :=
  co (h <- driver ;; driver_call (DResume h) ;;; ret VUndef).

Definition flush : M nat :=
  new_promise (fun pid => h <- driver ;; driver_call (DFlush h (CbHandleCls pid))).

Definition drain : M nat :=
  new_promise (fun pid => h <- driver ;; driver_call (DDrain h (CbHandleCls pid))).

Definition close : M nat :=
  new_promise (fun pid => h <- driver ;; driver_call (DClose h (CbHandleCls pid))).

Definition set (options : nat) : M nat :=
  new_promise (fun pid => h <- driver ;; driver_call (DSet h options (CbHandleCls pid))).

Definition update (options : nat) : M nat :=
  new_promise (fun pid => h <- driver ;; driver_call (DUpdate h options (CbHandleCls pid))).

Definition io (o : io_op) : M nat :=
  match o with
  | OWrite d => write d
  | OClose => close
  | OFlush => flush
  | ODrain => drain
  | OPause => pause
  | OResume => resume
  | OSet x => set x
  | OUpdate x => update x
  | OIsOpen => isOpen
  end.

(** [list ()]: [err ? reject(err) : resolve(ports)]. *)
Definition list : M nat :=
  new_promise (fun pid => driver_call (DList (CbListCls pid))).

End Cls.

(** ** Public surface and [$spec.methods] of each variant *)

Module Surface.

(** How a property of the adapter object (or class prototype) is defined. *)
Inductive kind := KMethod | KGetter | KData | KCtor.

Inductive variant :=
| VModule            (* sugoModuleSerialport, lib/sugo_module_serialport.js *)
| VInterface         (* sugoInterfaceSerialport, first half of lib/sugo_interface_serialport.js *)
| VInterfaceModule   (* the module copy, second half of lib/sugo_interface_serialport.js *)
| VClass.            (* Serialport.prototype, lib/serialport.js *)

Definition io_names : list string :=
  ["open"; "isOpen"; "write"; "pause"; "resume"; "flush"; "drain"; "close"; "set"; "update"].

(** Own properties, in source order. *)
Definition props (v : variant) : list (string * kind) :=
  match v with
  | VModule | VInterfaceModule =>
      [("ping", KMethod); ("assert", KMethod); ("list", KMethod); ("SerialPort", KMethod)]
      ++ map (fun n => (n, KMethod)) io_names ++ [("$spec", KData)]
  | VInterface => [("ping", KMethod); ("assert", KMethod); ("$spec", KData)]
  | VClass =>
      [("constructor", KCtor); ("ping", KMethod); ("assert", KMethod); ("driver", KGetter);
       ("list", KMethod); ("connect", KMethod)]
      ++ map (fun n => (n, KMethod)) io_names ++ [("$spec", KGetter)]
  end.

(** Keys of [$spec.methods], in source order. *)
Definition spec_methods (v : variant) : list string :=
  match v with
  | VModule | VInterfaceModule =>
      ["ping"; "assert"; "list"; "SerialPort"; "close"; "drain"; "flush"; "isOpen";
       "open"; "pause"; "resume"; "set"; "update"; "write"]
  | VInterface => ["ping"; "assert"]
  | VClass =>
      ["ping"; "assert"; "list"; "connect"; "close"; "drain"; "flush"; "isOpen";
       "open"; "pause"; "resume"; "set"; "update"; "write"]
  end.

(** [/^[\$_]/.test(name)] *)
Definition hidden (n : string) : bool :=
  match n with
  | String c _ => Ascii.eqb c "$"%char || Ascii.eqb c "_"%char
  | EmptyString => false
  end.

Definition is_method (k : kind) : bool :=
  match k with KMethod => true | _ => false end.

Definition implemented (v : variant) : list string :=
  map fst (filter (fun p => is_method (snd p) && negb (hidden (fst p))) (props v)).

Definition described (v : variant) : list string :=
  filter (fun n => negb (hidden n)) (spec_methods v).

Definition incl_b (l1 l2 : list string) : bool :=
  forallb (fun x => existsb (String.eqb x) l2) l1.

End Surface.

End Serial.

(** * Properties *)

Module SerialSpec.
Import Serial.
Local Open Scope list_scope.

(** ** Frame lemmas *)

Definition keeps {A B} (f : world -> A) (m : M B) : Prop :=
  forall w, f (snd (m w)) = f w.

Section Keeps.

Variable A : Type.
Variable f : world -> A.
Hypothesis f_proms : forall p w, f (set_proms_w p w) = f w.
Hypothesis f_next_pid : forall n w, f (set_next_pid_w n w) = f w.
Hypothesis f_rlog : forall r w, f (set_rlog_w r w) = f w.
Hypothesis f_uncaught : forall u w, f (set_uncaught_w u w) = f w.

Lemma keeps_ret {B} (b : B) : keeps f (ret b).
Proof. intros w; reflexivity. Qed.

Lemma keeps_throw {B} e : keeps f (@throw B e).
Proof. intros w; reflexivity. Qed.

Lemma keeps_gets {B} (g : world -> B) : keeps f (gets g).
Proof. intros w; reflexivity. Qed.

Lemma keeps_bind {B C} (m : M B) (k : B -> M C) :
  keeps f m -> (forall b, keeps f (k b)) -> keeps f (bind m k).
Proof.
  intros Hm Hk w; unfold bind.
  specialize (Hm w); destruct (m w) as [[b|e] w']; simpl in *; [rewrite Hk|]; auto.
Qed.

Lemma keeps_try_catch {B} (m : M B) k :
  keeps f m -> (forall e, keeps f (k e)) -> keeps f (try_catch m k).
Proof.
  intros Hm Hk w; unfold try_catch.
  specialize (Hm w); destruct (m w) as [[b|e] w']; simpl in *; [|rewrite Hk]; auto.
Qed.

Lemma keeps_for_each {B} (g : B -> M unit) l :
  (forall b, keeps f (g b)) -> keeps f (for_each g l).
Proof.
  intros Hg; induction l as [|b l IH]; simpl.
  - apply keeps_ret.
  - apply keeps_bind; auto.
Qed.

Lemma keeps_resolve pid v : keeps f (resolve pid v).
Proof.
  intros w; unfold resolve, modify; simpl.
  destruct (is_settled _); rewrite ?f_proms, f_rlog; reflexivity.
Qed.

Lemma keeps_reject pid e : keeps f (reject pid e).
Proof.
  intros w; unfold reject, modify; simpl.
  destruct (is_settled _); rewrite ?f_proms, f_rlog; reflexivity.
Qed.

Lemma keeps_new_promise exec :
  (forall pid, keeps f (exec pid)) -> keeps f (new_promise exec).
Proof.
  intros He w; unfold new_promise.
  set (w1 := set_proms_w _ _).
  assert (E1 : f w1 = f w) by (unfold w1; rewrite f_proms, f_next_pid; reflexivity).
  specialize (He (next_pid w) w1).
  destruct (exec (next_pid w) w1) as [[u|e] w2]; cbn [snd] in *.
  - congruence.
  - rewrite (keeps_reject (next_pid w) e w2); congruence.
Qed.

Lemma keeps_co body : keeps f body -> keeps f (co body).
Proof.
  intros Hb; apply keeps_new_promise; intros pid.
  apply keeps_bind; auto; intros; apply keeps_resolve.
Qed.

Lemma keeps_run_task m w : keeps f m -> f (run_task m w) = f w.
Proof.
  intros Hm; unfold run_task; specialize (Hm w).
  destruct (m w) as [[u|e] w']; simpl in *; rewrite ?f_uncaught; auto.
Qed.

End Keeps.

Ltac field_tac := intros; reflexivity.

(** ** C4: method names and [$spec.methods] *)

Lemma incl_b_spec l1 l2 : Surface.incl_b l1 l2 = true -> forall x, In x l1 -> In x l2.
Proof.
  unfold Surface.incl_b; rewrite forallb_forall; intros H x Hx.
  specialize (H x Hx); apply existsb_exists in H as [y [Hy Heq]].
  apply String.eqb_eq in Heq; subst; exact Hy.
Qed.

(** C4: for every variant, a name (not starting with [$] or [_]) is an
    implemented method iff it is a key of [$spec.methods]. The class's
    [constructor] and its accessors [driver] and [$spec] are not methods. *)
Theorem methods_match_spec :
  forall v n, In n (Surface.implemented v) <-> In n (Surface.described v).
Proof.
  intros v n; split; apply incl_b_spec; destruct v; vm_compute; reflexivity.
Qed.

(** ** Promise lemmas *)

Lemma upd_same {A} (g : nat -> A) k v : upd g k v k = v.
Proof. unfold upd; rewrite Nat.eqb_refl; reflexivity. Qed.

Lemma upd_other {A} (g : nat -> A) k v x : x <> k -> upd g k v x = g x.
Proof. intros H; unfold upd; apply Nat.eqb_neq in H; rewrite H; reflexivity. Qed.

Ltac upd_simpl := repeat (rewrite ?upd_same; cbn).

Lemma co_ret_outcome v w : fst (outcome (co (ret v)) w) = Fulfilled v.
Proof. destruct w; unfold outcome, co, new_promise; cbn; upd_simpl; reflexivity. Qed.

(** The part of the world an adapter call may act on, apart from the
    promise table. *)
Definition adapter_view (w : world) :=
  (slot w, next_h w, listeners w, surface w, dcalls w, reactions w, uncaught w,
   opened w, timers w).

Lemma keeps_view_co body : keeps adapter_view body -> keeps adapter_view (co body).
Proof. apply keeps_co; field_tac. Qed.

(** ** C9: ping *)

(** C9 (counterexample): the module variant's [ping] answers ['pong'] to
    the empty string. *)
Lemma ping_empty_string_counterexample :
  fst (outcome (Fn.ping [VStr EmptyString]) init_world) = Fulfilled (VStr "pong")
  /\ Fulfilled (VStr "pong") <> Fulfilled (VStr EmptyString).
Proof. split; [vm_compute; reflexivity | discriminate]. Qed.

(** C9 (amended): with [params[0] || 'pong'] the module variant (and the
    interface factory, whose [ping] is the same) resolves to [x] for every
    non-empty string [x] and to ['pong'] for the empty string or no argument; the
    default-parameter [ping] of the class and of the interface copy
    resolves to [x] for every string and to ['pong'] when omitted; no
    [ping] changes the adapter's state. *)
Theorem ping_echo_amended :
  (forall x w, fst (outcome (Fn.ping [VStr x]) w)
               = Fulfilled (VStr (if String.eqb x EmptyString then "pong" else x)))
  /\ (forall w, fst (outcome (Fn.ping []) w) = Fulfilled (VStr "pong"))
  /\ (forall x w, fst (outcome (Cls.ping (VStr x)) w) = Fulfilled (VStr x)
                  /\ fst (outcome (Iface.ping (VStr x)) w) = Fulfilled (VStr x))
  /\ (forall w, fst (outcome (Cls.ping VUndef) w) = Fulfilled (VStr "pong")
                /\ fst (outcome (Iface.ping VUndef) w) = Fulfilled (VStr "pong"))
  /\ (forall params arg, keeps adapter_view (Fn.ping params)
                         /\ keeps adapter_view (Cls.ping arg)
                         /\ keeps adapter_view (Iface.ping arg)).
Proof.
  split; [|split; [|split; [|split]]].
  - intros x w; unfold Fn.ping; rewrite co_ret_outcome; cbn.
    destruct (String.eqb x EmptyString) eqn:E; cbn; [apply String.eqb_eq in E; subst|]; reflexivity.
  - intros w; unfold Fn.ping; rewrite co_ret_outcome; reflexivity.
  - intros x w; unfold Cls.ping, Iface.ping; rewrite !co_ret_outcome; auto.
  - intros w; unfold Cls.ping, Iface.ping; rewrite !co_ret_outcome; auto.
  - intros params arg; repeat split; apply keeps_view_co, keeps_ret.
Qed.

(** ** C2: I/O without a connection *)

Lemma fn_io_unconnected o w :
  slot w = None ->
  fst (outcome (Fn.io o) w) = Rejected (ErrAssert NOT_CONNECT)
  /\ dcalls (snd (outcome (Fn.io o) w)) = dcalls w.
Proof.
  destruct w; cbn; intros ->.
  destruct o; unfold outcome; cbn; upd_simpl; auto.
Qed.

Lemma cls_io_unconnected o w :
  o <> OIsOpen -> slot w = None ->
  fst (outcome (Cls.io o) w) = Rejected (ErrAssert NOT_CONNECT)
  /\ dcalls (snd (outcome (Cls.io o) w)) = dcalls w.
Proof.
  destruct w; cbn; intros Ho ->.
  destruct o; unfold outcome; cbn; upd_simpl; auto; congruence.
Qed.

Lemma cls_isOpen_unconnected w :
  slot w = None ->
  fst (outcome Cls.isOpen w) = Fulfilled VNull
  /\ dcalls (snd (outcome Cls.isOpen w)) = dcalls w.
Proof.
  destruct w; cbn; intros ->.
  unfold outcome; cbn; upd_simpl; auto.
Qed.

(** C2 (counterexample): the class variant's [isOpen] with [_driver]
    still [null] resolves to [null] instead of rejecting. *)
Lemma isOpen_unconnected_counterexample :
  fst (outcome Cls.isOpen init_world) = Fulfilled VNull.
Proof. vm_compute; reflexivity. Qed.

(** C2 (amended): with the connection slot empty, every I/O method of the
    function-object variants ([write], [close], [flush], [drain], [pause],
    [resume], [set], [update], [isOpen]) and every one of the class variant
    but [isOpen] rejects with the not-connected assertion error and calls
    nothing on the driver; the class's [isOpen] ([_driver && ...]) resolves
    to [null], also without a driver call. *)
Theorem io_unconnected_amended (w : world) (Hs : slot w = None) :
  (forall o, fst (outcome (Fn.io o) w) = Rejected (ErrAssert NOT_CONNECT)
             /\ dcalls (snd (outcome (Fn.io o) w)) = dcalls w)
  /\ (forall o, o <> OIsOpen ->
             fst (outcome (Cls.io o) w) = Rejected (ErrAssert NOT_CONNECT)
             /\ dcalls (snd (outcome (Cls.io o) w)) = dcalls w)
  /\ fst (outcome Cls.isOpen w) = Fulfilled VNull
  /\ dcalls (snd (outcome Cls.isOpen w)) = dcalls w.
Proof.
  split; [|split].
  - intros o; apply fn_io_unconnected; exact Hs.
  - intros o Ho; apply cls_io_unconnected; assumption.
  - apply cls_isOpen_unconnected; exact Hs.
Qed.

Lemma io_unconnected_amended_witness :
  slot init_world = None
  /\ fst (outcome (Fn.io (OWrite 1)) init_world) = Rejected (ErrAssert NOT_CONNECT).
Proof.
  split; [reflexivity|].
  exact (proj1 (proj1 (io_unconnected_amended init_world eq_refl) (OWrite 1))).
Defined.

(** ** C1: the connect promise *)

Definition tty : string := "/dev/ttyUSB0".

(** C1: the module variant's [SerialPort] never calls [resolve]: after the
    driver reports ['open'] its promise is still pending, and after
    ['error'] it is not rejected either; the class variant's [connect] at
    the same inputs resolves on ['open'] and rejects on ['error']. *)
Theorem SerialPort_ignores_open_and_error :
  let m := snd (Fn.SerialPort tty 1 None init_world) in
  let c := snd (Cls.connect tty 1 None init_world) in
  proms (dispatch 0 EOpen 0 m) 0 = Pending
  /\ proms (dispatch 0 EError 5 m) 0 = Pending
  /\ proms (dispatch 0 EOpen 0 c) 0 = Fulfilled VUndef
  /\ proms (dispatch 0 EError 5 c) 0 = Rejected (ErrDriver 5).
Proof. vm_compute; repeat split. Qed.

(** ** C5 and C6: callback completion *)

Lemma handle_mod_settles pid err w :
  proms w pid = Pending ->
  proms (run_task (callback_body (CbHandleMod pid) err VUndef) w) pid
  = match err with Some e => Rejected e | None => Fulfilled VUndef end.
Proof.
  destruct w; cbn; intros H.
  destruct err; unfold run_task; cbn; rewrite H; cbn; upd_simpl; reflexivity.
Qed.

Lemma handle_cls_settles pid err w :
  proms w pid = Pending ->
  proms (run_task (callback_body (CbHandleCls pid) err VUndef) w) pid
  = match err with Some e => Rejected e | None => Fulfilled VUndef end.
Proof.
  destruct w; cbn; intros H.
  destruct err; unfold run_task; cbn; rewrite H; cbn; upd_simpl; reflexivity.
Qed.

(** C5: the driver's enumeration reports an error to the module variant's
    [list]: the callback throws it to the event loop and the promise stays
    pending, while the class variant's [list] rejects. The module's
    [_handle] invokes [reject] and then [resolve] on an error; the promise
    still ends rejected. *)
Theorem list_error_leaves_promise_pending :
  let m := snd (Fn.list init_world) in
  let c := snd (Cls.list init_world) in
  let wm := deliver (CbListMod 0) (Some (ErrDriver 3)) VUndef m in
  proms wm 0 = Pending /\ uncaught wm = [ErrDriver 3]
  /\ proms (deliver (CbListCls 0) (Some (ErrDriver 3)) VUndef c) 0 = Rejected (ErrDriver 3)
  /\ (let ww := snd (Fn.write 1 (snd (Fn.SerialPort tty 1 None init_world))) in
      let wd := deliver (CbHandleMod 1) (Some (ErrDriver 3)) VUndef ww in
      proms wd 1 = Rejected (ErrDriver 3)
      /\ rlog wd = [RReject 1 (ErrDriver 3); RResolve 1 VUndef]).
Proof. vm_compute; repeat split. Qed.

(** C6: the module variant's [list] passes the port list through when the
    enumeration succeeds, but on an enumeration error its promise never
    rejects (the error is thrown from the callback to the event loop); the
    class variant rejects with the error. *)
Theorem list_module_error_not_propagated :
  let m := snd (Fn.list init_world) in
  let c := snd (Cls.list init_world) in
  proms (deliver (CbListMod 0) None (VPorts ["/dev/ttyS0"; "/dev/ttyUSB0"]) m) 0
    = Fulfilled (VPorts ["/dev/ttyS0"; "/dev/ttyUSB0"])
  /\ proms (deliver (CbListMod 0) (Some (ErrDriver 7)) VUndef m) 0 = Pending
  /\ uncaught (deliver (CbListMod 0) (Some (ErrDriver 7)) VUndef m) = [ErrDriver 7]
  /\ proms (deliver (CbListCls 0) (Some (ErrDriver 7)) VUndef c) 0 = Rejected (ErrDriver 7)
  /\ proms (deliver (CbListCls 0) None (VPorts ["/dev/ttyS0"]) c) 0
     = Fulfilled (VPorts ["/dev/ttyS0"]).
Proof. vm_compute; repeat split. Qed.

(** ** Listeners and the event surface *)

(** What [run_listeners] republishes. *)
Definition hrelay (hd : handler) (p : payload) : list (event * payload) :=
  match hd with HRelay e => [(e, p)] | _ => [] end.

Definition relay_out (ls : list (nat * event * handler)) (h : nat) (ev : event) (p : payload)
    : list (event * payload) :=
  flat_map (fun l =>
    let '(h', ev', hd) := l in
    if Nat.eqb h h' && event_beq ev ev' then hrelay hd p else []) ls.

Lemma run_handler_spec hd p w :
  exists w', run_handler hd p w = (Ok tt, w')
    /\ surface w' = surface w ++ hrelay hd p /\ listeners w' = listeners w
    /\ slot w' = slot w /\ reactions w' = reactions w.
Proof.
  destruct hd; eexists; split; try reflexivity; cbn;
    try (destruct (is_settled _)); cbn; rewrite ?app_nil_r; auto.
Qed.

Lemma run_handler_ok hd p w : fst (run_handler hd p w) = Ok tt.
Proof. destruct hd; reflexivity. Qed.

Lemma run_listeners_app ls1 ls2 h ev p w :
  run_listeners (ls1 ++ ls2) h ev p w
  = run_listeners ls2 h ev p (snd (run_listeners ls1 h ev p w)).
Proof.
  revert w; induction ls1 as [|[[h' ev'] hd] ls1 IH]; intros w; [reflexivity|].
  cbn [app run_listeners]; unfold bind.
  destruct (Nat.eqb h h' && event_beq ev ev').
  - pose proof (run_handler_ok hd p w) as Hok.
    destruct (run_handler hd p w) as [r w']; cbn in Hok; subst r; apply IH.
  - apply IH.
Qed.

Lemma run_listeners_skip ls h ev p w :
  (forall l, In l ls -> fst (fst l) <> h) -> run_listeners ls h ev p w = (Ok tt, w).
Proof.
  revert w; induction ls as [|[[h' ev'] hd] ls IH]; intros w Hs; [reflexivity|].
  cbn [run_listeners]; unfold bind.
  assert (Hh : Nat.eqb h h' = false).
  { apply Nat.eqb_neq; intros ->; apply (Hs (h', ev', hd)); simpl; auto. }
  rewrite Hh; cbn; apply IH; intros l Hl; apply Hs; simpl; auto.
Qed.

Lemma run_listeners_spec ls h ev p w :
  fst (run_listeners ls h ev p w) = Ok tt
  /\ surface (snd (run_listeners ls h ev p w)) = surface w ++ relay_out ls h ev p
  /\ listeners (snd (run_listeners ls h ev p w)) = listeners w
  /\ slot (snd (run_listeners ls h ev p w)) = slot w
  /\ reactions (snd (run_listeners ls h ev p w)) = reactions w.
Proof.
  revert w; induction ls as [|[[h' ev'] hd] ls IH]; intros w.
  - cbn; rewrite app_nil_r; auto.
  - cbn [run_listeners relay_out flat_map]; unfold bind.
    destruct (Nat.eqb h h' && event_beq ev ev') eqn:E.
    + destruct (run_handler_spec hd p w) as (w' & Hr & S1 & S2 & S3 & S4); rewrite Hr.
      destruct (IH w') as (H1 & H2 & H3 & H4 & H5).
      rewrite H2, S1, <- app_assoc; repeat split; congruence.
    + destruct (IH w) as (H1 & H2 & H3 & H4 & H5); cbn [ret]; repeat split; auto.
Qed.

(** ** Frames of the event loop *)

Section Frame.

Variable A : Type.
Variable f : world -> A.
Hypothesis f_proms : forall p w, f (set_proms_w p w) = f w.
Hypothesis f_rlog : forall r w, f (set_rlog_w r w) = f w.
Hypothesis f_uncaught : forall u w, f (set_uncaught_w u w) = f w.
Hypothesis f_reactions : forall r w, f (set_reactions_w r w) = f w.
Hypothesis f_slot : forall s w, f (set_slot_w s w) = f w.
Hypothesis f_opened : forall o w, f (set_opened_w o w) = f w.

Lemma keeps_run_reaction r : keeps f (run_reaction r).
Proof.
  destruct r as [inner [outer h]]; unfold run_reaction.
  apply keeps_bind; [apply keeps_gets|]; intros [|v|e].
  - apply keeps_ret.
  - apply keeps_bind; [intros w; apply f_slot|]; intros _; apply keeps_resolve; auto.
  - apply keeps_reject; auto.
Qed.

Lemma run_reactions_frame w : f (run_reactions w) = f w.
Proof.
  unfold run_reactions; rewrite keeps_run_task; auto.
  apply keeps_for_each; intros; apply keeps_run_reaction.
Qed.

Lemma driver_state_frame h ev w : f (snd (driver_state h ev w)) = f w.
Proof. destruct ev; cbn; auto. Qed.

End Frame.

Lemma driver_state_ok h ev w : fst (driver_state h ev w) = Ok tt.
Proof. destruct ev; reflexivity. Qed.

Lemma driver_emit_spec h ev p w :
  fst (driver_emit h ev p w) = Ok tt
  /\ surface (snd (driver_emit h ev p w)) = surface w ++ relay_out (listeners w) h ev p
  /\ listeners (snd (driver_emit h ev p w)) = listeners w.
Proof.
  unfold driver_emit, bind, gets.
  pose proof (driver_state_ok h ev w) as Hok.
  assert (Hs : surface (snd (driver_state h ev w)) = surface w)
    by (apply driver_state_frame; field_tac).
  assert (Hl : listeners (snd (driver_state h ev w)) = listeners w)
    by (apply driver_state_frame; field_tac).
  destruct (driver_state h ev w) as [r w1]; cbn in Hok, Hs, Hl; subst r.
  rewrite Hl; destruct (run_listeners_spec (listeners w) h ev p w1) as (H1 & H2 & H3 & _).
  rewrite H2, H3, Hs, Hl; auto.
Qed.

Lemma dispatch_surface h ev p w :
  surface (dispatch h ev p w) = surface w ++ relay_out (listeners w) h ev p
  /\ listeners (dispatch h ev p w) = listeners w.
Proof.
  unfold dispatch; rewrite !run_reactions_frame by field_tac.
  destruct (driver_emit_spec h ev p w) as (H1 & H2 & H3).
  unfold run_task; destruct (driver_emit h ev p w) as [r w1]; cbn in *; subst r; auto.
Qed.

Lemma dispatch_all_surface h tr w :
  surface (dispatch_all h tr w)
  = surface w ++ flat_map (fun e => relay_out (listeners w) h (fst e) (snd e)) tr
  /\ listeners (dispatch_all h tr w) = listeners w.
Proof.
  revert w; induction tr as [|[ev p] tr IH]; intros w; cbn.
  - rewrite app_nil_r; auto.
  - destruct (dispatch_surface h ev p w) as [H1 H2].
    destruct (IH (dispatch h ev p w)) as [H3 H4].
    rewrite H3, H4, H1, H2, app_assoc; auto.
Qed.

(** No listener is registered yet on handles the driver has not handed out. *)
Definition fresh_handle (w : world) : Prop :=
  forall l, In l (listeners w) -> fst (fst l) < next_h w.

Definition relay_listeners (h : nat) : list (nat * event * handler) :=
  map (fun ev => (h, ev, HRelay ev)) pipe_events.

Definition conn_listeners (h inner : nat) : list (nat * event * handler) :=
  relay_listeners h ++ [(h, EError, HReject inner); (h, EOpen, HResolve inner)].

Lemma relay_out_app l1 l2 h ev p :
  relay_out (l1 ++ l2) h ev p = relay_out l1 h ev p ++ relay_out l2 h ev p.
Proof. unfold relay_out; apply flat_map_app. Qed.

Lemma relay_out_fresh ls h ev p :
  (forall l, In l ls -> fst (fst l) < h) -> relay_out ls h ev p = [].
Proof.
  induction ls as [|[[h' ev'] hd] ls IH]; intros Hf; [reflexivity|].
  cbn [relay_out flat_map].
  assert (Hh : Nat.eqb h h' = false).
  { apply Nat.eqb_neq; intros ->. specialize (Hf (h', ev', hd) (or_introl eq_refl)).
    cbn in Hf; lia. }
  rewrite Hh; cbn; apply IH; intros l Hl; apply Hf; right; exact Hl.
Qed.

Lemma relay_out_relays h ev p : relay_out (relay_listeners h) h ev p = [(ev, p)].
Proof. unfold relay_out; destruct ev; cbn; rewrite Nat.eqb_refl; reflexivity. Qed.

Lemma relay_out_conn h inner ev p : relay_out (conn_listeners h inner) h ev p = [(ev, p)].
Proof.
  unfold conn_listeners; rewrite relay_out_app, relay_out_relays.
  unfold relay_out; cbn; destruct (Nat.eqb h h), ev; reflexivity.
Qed.

Lemma fn_connect_world path options w :
  let w1 := snd (Fn.SerialPort path options None w) in
  listeners w1 = listeners w ++ relay_listeners (next_h w)
  /\ surface w1 = surface w /\ slot w1 = Some (next_h w) /\ next_h w1 = S (next_h w).
Proof. destruct w; cbn; rewrite <- !app_assoc; auto. Qed.

Lemma cls_connect_world path options w :
  let w1 := snd (Cls.connect path options None w) in
  let outer := next_pid w in
  listeners w1 = listeners w ++ conn_listeners (next_h w) (S outer)
  /\ surface w1 = surface w /\ slot w1 = slot w /\ next_h w1 = S (next_h w)
  /\ next_pid w1 = S (S outer)
  /\ reactions w1 = reactions w ++ [(S outer, RCoConnect outer (next_h w))]
  /\ proms w1 = upd (upd (proms w) outer Pending) (S outer) Pending.
Proof. destruct w; cbn; rewrite <- !app_assoc; repeat split. Qed.

Lemma relays_of_trace ls h tr :
  (forall ev p, relay_out ls h ev p = [(ev, p)]) ->
  flat_map (fun e => relay_out ls h (fst e) (snd e)) tr = tr.
Proof.
  intros H; induction tr as [|[ev p] tr IH]; cbn; [reflexivity|].
  rewrite H, IH; reflexivity.
Qed.

(** ** C3: event relay *)

(** C3: once the driver object is built, every event the driver emits,
    whatever its type among the five piped ones and whatever the order, is
    republished exactly once, with its payload and in emission order: the
    adapter's event surface grows by exactly the driver's trace, in both
    the function-object variant and the class variant. *)
Theorem events_relayed_in_order (w : world) (Hfresh : fresh_handle w)
    path options (tr : list (event * payload)) :
  surface (dispatch_all (next_h w) tr (snd (Fn.SerialPort path options None w)))
    = surface w ++ tr
  /\ surface (dispatch_all (next_h w) tr (snd (Cls.connect path options None w)))
    = surface w ++ tr.
Proof.
  split.
  - destruct (fn_connect_world path options w) as (L & S & _).
    rewrite (proj1 (dispatch_all_surface _ _ _)), S, L.
    rewrite relays_of_trace; auto.
    intros ev p; rewrite relay_out_app, relay_out_fresh, relay_out_relays; auto.
  - destruct (cls_connect_world path options w) as (L & S & _).
    rewrite (proj1 (dispatch_all_surface _ _ _)), S, L.
    rewrite relays_of_trace; auto.
    intros ev p; rewrite relay_out_app, relay_out_fresh, relay_out_conn; auto.
Qed.

Lemma events_relayed_in_order_witness :
  fresh_handle init_world
  /\ surface (dispatch_all 0 [(EOpen, 0); (EData, 4); (EClose, 0)]
                (snd (Fn.SerialPort tty 1 None init_world)))
     = [(EOpen, 0); (EData, 4); (EClose, 0)].
Proof.
  assert (H : fresh_handle init_world) by (intros l []).
  split; [exact H|].
  exact (proj1 (events_relayed_in_order init_world H tty 1 [(EOpen, 0); (EData, 4); (EClose, 0)])).
Defined.

(** ** The class variant's [connect] as a state machine *)

Definition settle_if (P : nat -> settle) (k : nat) (s : settle) : nat -> settle :=
  if is_settled (P k) then P else upd P k s.

Definition emit_proms (ev : event) (p : payload) (inner : nat) (P : nat -> settle) :=
  match ev with
  | EOpen => settle_if P inner (Fulfilled VUndef)
  | EError => settle_if P inner (Rejected (ErrDriver p))
  | _ => P
  end.

Lemma emit_conn L0 h inner ev p w :
  listeners w = L0 ++ conn_listeners h inner ->
  (forall l, In l L0 -> fst (fst l) < h) ->
  let w' := run_task (driver_emit h ev p) w in
  listeners w' = listeners w /\ slot w' = slot w /\ reactions w' = reactions w
  /\ next_pid w' = next_pid w /\ next_h w' = next_h w
  /\ proms w' = emit_proms ev p inner (proms w).
Proof.
  intros HL H0.
  unfold run_task, driver_emit, bind, gets.
  pose proof (driver_state_ok h ev w) as Hok.
  assert (F : forall A (f : world -> A), (forall o w, f (set_opened_w o w) = f w) ->
              f (snd (driver_state h ev w)) = f w)
    by (intros; apply driver_state_frame; auto).
  destruct (driver_state h ev w) as [r w1] eqn:E; cbn in Hok; subst r.
  assert (L1 : listeners w1 = L0 ++ conn_listeners h inner)
    by (rewrite <- HL; exact (F _ listeners (fun _ _ => eq_refl))).
  rewrite L1, run_listeners_app, (run_listeners_skip L0)
    by (intros l Hl; specialize (H0 l Hl); lia).
  cbn [snd].
  pose proof (F _ slot (fun _ _ => eq_refl)) as Fs.
  pose proof (F _ reactions (fun _ _ => eq_refl)) as Fr.
  pose proof (F _ proms (fun _ _ => eq_refl)) as Fp.
  pose proof (F _ next_pid (fun _ _ => eq_refl)) as Fn.
  pose proof (F _ next_h (fun _ _ => eq_refl)) as Fh.
  pose proof (F _ listeners (fun _ _ => eq_refl)) as Fl.
  cbn [snd] in Fs, Fr, Fp, Fn, Fh, Fl.
  unfold conn_listeners, relay_listeners; destruct ev; cbn; rewrite ?Nat.eqb_refl; cbn;
    unfold emit_proms, settle_if; rewrite ?Fp;
    try (destruct (is_settled (proms w inner))); cbn; repeat split; congruence.
Qed.

Lemma set_reactions_same w : set_reactions_w (reactions w) w = w.
Proof. destruct w; reflexivity. Qed.

Lemma filter_pending (P : nat -> settle) (R : list (nat * reaction)) :
  (forall r, In r R -> P (fst r) = Pending) ->
  filter (fun r => is_settled (P (fst r))) R = []
  /\ filter (fun r => negb (is_settled (P (fst r)))) R = R.
Proof.
  induction R as [|r R IH]; intros H; [auto|]; cbn.
  rewrite (H r (or_introl eq_refl)); cbn.
  destruct IH as [-> ->]; auto; intros; apply H; right; auto.
Qed.

Lemma run_reactions_idle w :
  (forall r, In r (reactions w) -> proms w (fst r) = Pending) -> run_reactions w = w.
Proof.
  intros H; unfold run_reactions.
  destruct (filter_pending (proms w) (reactions w) H) as [-> ->].
  apply set_reactions_same.
Qed.

Lemma run_reactions_last w R0 inner outer h :
  reactions w = R0 ++ [(inner, RCoConnect outer h)] ->
  (forall r, In r R0 -> proms w (fst r) = Pending) ->
  is_settled (proms w inner) = true ->
  let w' := run_reactions w in
  reactions w' = R0 /\ listeners w' = listeners w
  /\ (forall q, q <> outer -> proms w' q = proms w q)
  /\ match proms w inner with
     | Fulfilled _ => slot w' = Some h
                      /\ proms w' outer = settle_if (proms w) outer (Fulfilled VUndef) outer
     | Rejected e => slot w' = slot w
                      /\ proms w' outer = settle_if (proms w) outer (Rejected e) outer
     | Pending => False
     end.
Proof.
  intros HR H0 Hs; unfold run_reactions; rewrite HR, !filter_app.
  destruct (filter_pending (proms w) R0 H0) as [-> ->].
  cbn [filter fst]; rewrite Hs; cbn [negb app].
  unfold settle_if.
  rewrite app_nil_r; cbn [for_each run_reaction].
  unfold run_task, bind, gets, ret, set_slot, modify, resolve, reject; cbn.
  destruct (proms w inner) as [|v|e] eqn:Ei; [discriminate| |]; cbn;
    destruct (is_settled (proms w outer)) eqn:Eo; cbn;
    repeat split; auto; intros q Hq; rewrite ?upd_other; auto.
Qed.

Lemma emit_proms_other ev p inner P q : q <> inner -> emit_proms ev p inner P q = P q.
Proof.
  intros Hq; destruct ev; cbn; try reflexivity; unfold settle_if;
    destruct (is_settled (P inner)); first [reflexivity | apply upd_other; exact Hq].
Qed.

Lemma emit_proms_settled ev p inner P :
  is_settled (P inner) = true -> emit_proms ev p inner P = P.
Proof. intros Hs; destruct ev; cbn; unfold settle_if; rewrite ?Hs; reflexivity. Qed.

Definition conn_wf (w : world) : Prop :=
  fresh_handle w
  /\ (forall r, In r (reactions w) -> fst r < next_pid w /\ proms w (fst r) = Pending).

(** Where [Serialport#connect] stands: awaiting the driver, past ['open'],
    or past ['error']. *)
Inductive cphase := Waiting | Opened | Failed (p : payload).

Definition next_phase (ph : cphase) (ev : event) (p : payload) : cphase :=
  match ph, ev with
  | Waiting, EOpen => Opened
  | Waiting, EError => Failed p
  | _, _ => ph
  end.

Definition conn_inv (w0 w : world) (ph : cphase) : Prop :=
  let h := next_h w0 in
  let outer := next_pid w0 in
  listeners w = listeners w0 ++ conn_listeners h (S outer)
  /\ (forall q, q < outer -> proms w q = proms w0 q)
  /\ match ph with
     | Waiting =>
         proms w (S outer) = Pending /\ proms w outer = Pending
         /\ reactions w = reactions w0 ++ [(S outer, RCoConnect outer h)]
         /\ slot w = slot w0
     | Opened =>
         is_settled (proms w (S outer)) = true /\ proms w outer = Fulfilled VUndef
         /\ reactions w = reactions w0 /\ slot w = Some h
     | Failed p =>
         is_settled (proms w (S outer)) = true /\ proms w outer = Rejected (ErrDriver p)
         /\ reactions w = reactions w0 /\ slot w = slot w0
     end.

Lemma conn_inv_start w0 path options :
  conn_inv w0 (snd (Cls.connect path options None w0)) Waiting.
Proof.
  destruct (cls_connect_world path options w0) as (L & _ & Sl & _ & _ & R & P).
  cbn zeta in *; unfold conn_inv; rewrite L, R, Sl, P.
  repeat split.
  - intros q Hq; rewrite !upd_other by lia; reflexivity.
  - apply upd_same.
  - rewrite upd_other, upd_same by lia; reflexivity.
Qed.

Lemma conn_inv_step w0 w ph ev p :
  conn_wf w0 -> conn_inv w0 w ph ->
  conn_inv w0 (dispatch (next_h w0) ev p w) (next_phase ph ev p).
Proof.
  intros [Hfresh Hreac] (HL & Hlow & Hph).
  unfold dispatch.
  destruct (emit_conn (listeners w0) (next_h w0) (S (next_pid w0)) ev p w HL Hfresh)
    as (El & Es & Er & En & Eh & Ep).
  set (W := run_task (driver_emit (next_h w0) ev p) w) in *.
  assert (Hlow' : forall q, q < next_pid w0 -> proms W q = proms w0 q).
  { intros q Hq; rewrite Ep, emit_proms_other by lia; auto. }
  assert (HR0 : forall r, In r (reactions w0) -> proms W (fst r) = Pending).
  { intros r Hr; destruct (Hreac r Hr) as [Hlt Hp]; rewrite Hlow'; auto. }
  destruct ph as [| |pf]; cbn zeta in Hph; destruct Hph as (H1 & H2 & H3 & H4).
  - assert (Hout : proms W (next_pid w0) = Pending)
      by (rewrite Ep, emit_proms_other by lia; auto).
    destruct ev; cbn [next_phase].
    all: try (assert (EW : proms W = proms w) by (rewrite Ep; reflexivity);
      rewrite run_reactions_idle;
      [ unfold conn_inv; rewrite El, EW, Er, Es; repeat split; auto
      | rewrite Er, H3; intros r Hr; apply in_app_or in Hr as [Hr|[<-|[]]];
        [apply HR0; auto | cbn; rewrite EW; auto] ]).
    + assert (Hi : proms W (S (next_pid w0)) = Rejected (ErrDriver p))
        by (rewrite Ep; cbn; unfold settle_if; rewrite H1; cbn; apply upd_same).
      pose proof (run_reactions_last W (reactions w0) (S (next_pid w0)) (next_pid w0) (next_h w0))
        as RL.
      rewrite Er, H3 in RL; specialize (RL eq_refl HR0); rewrite Hi in RL.
      specialize (RL eq_refl); cbv beta iota zeta in RL.
      destruct RL as (R1 & R2 & R3 & R4 & R5).
      unfold conn_inv; rewrite R1, R2, R4, El, Es; repeat split; auto.
      * intros q Hq; rewrite R3 by lia; auto.
      * rewrite R3 by lia; rewrite Hi; reflexivity.
      * rewrite R5; unfold settle_if; rewrite Hout; cbn; apply upd_same.
    + assert (Hi : proms W (S (next_pid w0)) = Fulfilled VUndef)
        by (rewrite Ep; cbn; unfold settle_if; rewrite H1; cbn; apply upd_same).
      pose proof (run_reactions_last W (reactions w0) (S (next_pid w0)) (next_pid w0) (next_h w0))
        as RL.
      rewrite Er, H3 in RL; specialize (RL eq_refl HR0); rewrite Hi in RL.
      specialize (RL eq_refl); cbv beta iota zeta in RL.
      destruct RL as (R1 & R2 & R3 & R4 & R5).
      unfold conn_inv; rewrite R1, R2, R4, El; repeat split; auto.
      * intros q Hq; rewrite R3 by lia; auto.
      * rewrite R3 by lia; rewrite Hi; reflexivity.
      * rewrite R5; unfold settle_if; rewrite Hout; cbn; apply upd_same.
  - assert (EW : proms W = proms w) by (rewrite Ep; apply emit_proms_settled; auto).
    rewrite run_reactions_idle by (rewrite Er, H3; auto).
    unfold conn_inv; rewrite El, EW, Er, Es; repeat split; auto.
  - assert (EW : proms W = proms w) by (rewrite Ep; apply emit_proms_settled; auto).
    rewrite run_reactions_idle by (rewrite Er, H3; auto).
    unfold conn_inv; rewrite El, EW, Er, Es; repeat split; auto.
Qed.

Fixpoint phase_after (ph : cphase) (tr : list (event * payload)) : cphase :=
  match tr with
  | [] => ph
  | (ev, p) :: tr' => phase_after (next_phase ph ev p) tr'
  end.

Lemma conn_inv_trace w0 w ph tr :
  conn_wf w0 -> conn_inv w0 w ph ->
  conn_inv w0 (dispatch_all (next_h w0) tr w) (phase_after ph tr).
Proof.
  intros Hwf; revert w ph; induction tr as [|[ev p] tr IH]; intros w ph Hi; cbn; auto.
  apply IH, conn_inv_step; auto.
Qed.

(** ** C10: [_driver] is written only after ['open'] *)

(** C10: in the class variant, a [connect] whose promise rejects leaves
    [_driver] as it was: when the driver constructor throws, and when the
    driver reports ['error'] before ['open'], whatever events follow. *)
Theorem connect_rejection_keeps_driver (w : world) (Hwf : conn_wf w) path options :
  (forall e, fst (outcome (Cls.connect path options (Some e)) w) = Rejected e
             /\ slot (snd (Cls.connect path options (Some e) w)) = slot w)
  /\ (forall tr e,
        let w' := dispatch_all (next_h w) tr (snd (Cls.connect path options None w)) in
        proms w' (next_pid w) = Rejected e -> slot w' = slot w).
Proof.
  split.
  - intros e; destruct w; unfold outcome; cbn; upd_simpl; auto.
  - intros tr e; cbv zeta; intros Hrej.
    pose proof (conn_inv_trace w _ Waiting tr Hwf (conn_inv_start w path options)) as Hi.
    destruct Hi as (_ & _ & Hph).
    destruct (phase_after Waiting tr); destruct Hph as (_ & H2 & _ & H4); congruence.
Qed.

Lemma connect_rejection_keeps_driver_witness :
  conn_wf init_world
  /\ slot (dispatch_all 0 [(EError, 2); (EOpen, 0)] (snd (Cls.connect tty 1 None init_world)))
     = None.
Proof.
  assert (H : conn_wf init_world) by (split; [intros l []| intros r []]).
  split; [exact H|].
  apply (proj2 (connect_rejection_keeps_driver init_world H tty 1) _ (ErrDriver 2)).
  vm_compute; reflexivity.
Defined.

(** ** C7: only a connect writes the connection slot *)


















(** ** C8: the interface variant and [config.timeout] *)

Section EventFrame.

Variable A : Type.
Variable f : world -> A.
Hypothesis f_proms : forall p w, f (set_proms_w p w) = f w.
Hypothesis f_next_pid : forall n w, f (set_next_pid_w n w) = f w.
Hypothesis f_rlog : forall r w, f (set_rlog_w r w) = f w.
Hypothesis f_uncaught : forall u w, f (set_uncaught_w u w) = f w.
Hypothesis f_reactions : forall r w, f (set_reactions_w r w) = f w.
Hypothesis f_slot : forall s w, f (set_slot_w s w) = f w.
Hypothesis f_opened : forall o w, f (set_opened_w o w) = f w.
Hypothesis f_surface : forall s w, f (set_surface_w s w) = f w.

Lemma keeps_run_handler hd p : keeps f (run_handler hd p).
Proof.
  destruct hd; cbn [run_handler];
    [intros w; apply f_surface | apply keeps_resolve | apply keeps_reject]; auto.
Qed.

Lemma keeps_run_listeners ls h ev p : keeps f (run_listeners ls h ev p).
Proof.
  induction ls as [|[[h' ev'] hd] ls IH]; cbn [run_listeners]; [apply keeps_ret|].
  apply keeps_bind; [|intros; exact IH].
  destruct (_ && _); [apply keeps_run_handler|apply keeps_ret].
Qed.

Lemma keeps_driver_emit h ev p : keeps f (driver_emit h ev p).
Proof.
  unfold driver_emit; apply keeps_bind.
  - intros w; apply driver_state_frame; auto.
  - intros _; apply keeps_bind; [apply keeps_gets|intros ls; apply keeps_run_listeners].
Qed.

Lemma dispatch_frame h ev p w : f (dispatch h ev p w) = f w.
Proof.
  unfold dispatch; rewrite run_reactions_frame by auto.
  apply keeps_run_task; auto; apply keeps_driver_emit.
Qed.

Lemma deliver_frame cb err v w : f (deliver cb err v w) = f w.
Proof.
  unfold deliver; rewrite run_reactions_frame by auto.
  apply keeps_run_task; auto.
  destruct cb, err; cbn [callback_body];
    repeat first [apply keeps_bind | apply keeps_resolve | apply keeps_reject
                 | apply keeps_throw | apply keeps_ret | intros _]; auto.
Qed.

Lemma probed_frame pid name hasBin w : f (Iface.probed pid name hasBin w) = f w.
Proof.
  unfold Iface.probed; rewrite run_reactions_frame by auto.
  apply keeps_run_task; auto.
  unfold Check.finish; destruct (snd _); [apply keeps_resolve|apply keeps_reject|apply keeps_reject];
    auto.
Qed.

End EventFrame.

Definition is_close (c : dcall) : bool :=
  match c with DClose _ _ => true | _ => false end.

(** The [close] calls made on drivers so far. *)
Definition closes (w : world) : list dcall := filter is_close (dcalls w).

Ltac keeps_tac :=
  unfold Fn.portsPipe, Check.start, driver_new, set_slot, on, Cls.driver, is_open_call, assert_slot,
    driver_call, pipe_emit;
  repeat match goal with
  | |- forall _ : option _, _ => intros [?|]
  | |- forall _, _ => intro
  | |- keeps _ (new_promise _) => apply keeps_new_promise
  | |- keeps _ (co _) => apply keeps_co
  | |- keeps _ (bind _ _) => apply keeps_bind
  | |- keeps _ (try_catch _ _) => apply keeps_try_catch
  | |- keeps _ (for_each _ _) => apply keeps_for_each
  | |- keeps _ (match ?x with _ => _ end) => destruct x
  | |- keeps _ (ret _) => apply keeps_ret
  | |- keeps _ (throw _) => apply keeps_throw
  | |- keeps _ (gets _) => apply keeps_gets
  | |- keeps _ (resolve _ _) => apply keeps_resolve
  | |- keeps _ (reject _ _) => apply keeps_reject
  | |- keeps _ (modify _) =>
      intros ?; unfold closes; cbn; rewrite ?filter_app; cbn; rewrite ?app_nil_r; reflexivity
  | |- _ = _ => reflexivity
  end.

Definition is_close_op (o : Iface.op) : bool :=
  match o with Iface.IIo OClose => true | _ => false end.

Lemma iface_step_config c1 ic1 c2 ic2 o w : Iface.step c1 ic1 o w = Iface.step c2 ic2 o w.
Proof. destruct o; reflexivity. Qed.

Lemma iface_run_config c1 ic1 c2 ic2 ops w :
  Iface.run c1 ic1 ops w = Iface.run c2 ic2 ops w.
Proof.
  revert w; induction ops as [|o ops IH]; intros w; [reflexivity|].
  cbn [Iface.run]; rewrite (iface_step_config c1 ic1 c2 ic2); apply IH.
Qed.

(** The methods of both objects: none arms a timer, and none but [close]
    calls the driver's [close]. *)
Lemma iface_calls_keep_timers path options ctor o pong params :
  keeps timers (Fn.SerialPort path options ctor) /\ keeps timers Fn.open
  /\ keeps timers (Fn.io o) /\ keeps timers Fn.list /\ keeps timers (Iface.ping pong)
  /\ keeps timers (Fn.ping params) /\ keeps timers Check.start.
Proof.
  unfold Fn.SerialPort, Fn.open, Fn.io, Fn.isOpen, Fn.write, Fn.pause, Fn.resume, Fn.flush,
    Fn.drain, Fn.close, Fn.set, Fn.update, Fn.list, Iface.ping, Fn.ping;
  repeat split; keeps_tac.
Qed.

Lemma iface_calls_keep_closes path options ctor o pong params :
  o <> OClose ->
  keeps closes (Fn.SerialPort path options ctor) /\ keeps closes Fn.open
  /\ keeps closes (Fn.io o) /\ keeps closes Fn.list /\ keeps closes (Iface.ping pong)
  /\ keeps closes (Fn.ping params) /\ keeps closes Check.start.
Proof.
  intros Ho.
  unfold Fn.SerialPort, Fn.open, Fn.io, Fn.isOpen, Fn.write, Fn.pause, Fn.resume, Fn.flush,
    Fn.drain, Fn.close, Fn.set, Fn.update, Fn.list, Iface.ping, Fn.ping;
  repeat split; [keeps_tac|keeps_tac| |keeps_tac..].
  destruct o; try congruence; keeps_tac.
Qed.

Lemma iface_step_timers c ic o w : timers w = [] -> timers (Iface.step c ic o w) = [].
Proof.
  intros Ht; rewrite <- Ht.
  destruct o as [path options ctor| |o| |pong| |params| |h ev p|cb err v|pid name hasBin|ms];
    cbn [Iface.step].
  all: try (rewrite dispatch_frame; auto; fail).
  all: try (rewrite deliver_frame; auto; fail).
  all: try (rewrite probed_frame; auto; fail).
  all: try (unfold elapse; rewrite Ht; reflexivity).
  all: destruct (iface_calls_keep_timers tty 0 None OClose VUndef [])
         as (Ks & Ko & _ & Kl & Kp & Kq & Ka).
  - destruct (iface_calls_keep_timers path options ctor OClose VUndef []) as (K & _).
    exact (K w).
  - exact (Ko w).
  - destruct (iface_calls_keep_timers tty 0 None o VUndef []) as (_ & _ & K & _).
    exact (K w).
  - exact (Kl w).
  - destruct (iface_calls_keep_timers tty 0 None OClose pong []) as (_ & _ & _ & _ & K & _).
    exact (K w).
  - exact (Ka w).
  - destruct (iface_calls_keep_timers tty 0 None OClose VUndef params)
      as (_ & _ & _ & _ & _ & K & _).
    exact (K w).
  - exact (Ka w).
Qed.

Lemma iface_step_closes c ic o w :
  timers w = [] -> is_close_op o = false -> closes (Iface.step c ic o w) = closes w.
Proof.
  intros Ht Hc.
  destruct o as [path options ctor| |o| |pong| |params| |h ev p|cb err v|pid name hasBin|ms];
    cbn [Iface.step].
  all: try (rewrite dispatch_frame; auto; fail).
  all: try (rewrite deliver_frame; auto; fail).
  all: try (rewrite probed_frame; auto; fail).
  all: try (unfold elapse; rewrite Ht; reflexivity).
  all: assert (Hw : OWrite 0 <> OClose) by discriminate.
  all: destruct (iface_calls_keep_closes tty 0 None (OWrite 0) VUndef [] Hw)
         as (Ks & Ko & _ & Kl & Kp & Kq & Ka).
  - destruct (iface_calls_keep_closes path options ctor (OWrite 0) VUndef [] Hw) as (K & _).
    exact (K w).
  - exact (Ko w).
  - assert (Ho : o <> OClose) by (intros ->; discriminate Hc).
    destruct (iface_calls_keep_closes tty 0 None o VUndef [] Ho) as (_ & _ & K & _).
    exact (K w).
  - exact (Kl w).
  - destruct (iface_calls_keep_closes tty 0 None (OWrite 0) pong [] Hw)
      as (_ & _ & _ & _ & K & _).
    exact (K w).
  - exact (Ka w).
  - destruct (iface_calls_keep_closes tty 0 None (OWrite 0) VUndef params Hw)
      as (_ & _ & _ & _ & _ & K & _).
    exact (K w).
  - exact (Ka w).
Qed.

Lemma iface_run_timers c ic ops w : timers w = [] -> timers (Iface.run c ic ops w) = [].
Proof.
  revert w; induction ops as [|o ops IH]; intros w Ht; [exact Ht|].
  cbn [Iface.run]; apply IH, iface_step_timers, Ht.
Qed.

Lemma iface_run_closes c ic ops w :
  timers w = [] -> forallb (fun o => negb (is_close_op o)) ops = true ->
  closes (Iface.run c ic ops w) = closes w.
Proof.
  revert w; induction ops as [|o ops IH]; intros w Ht Hops; [reflexivity|].
  cbn [Iface.run forallb] in *; apply andb_prop in Hops as [Ho Hops].
  rewrite IH; [|apply iface_step_timers, Ht|exact Hops].
  apply iface_step_closes; [exact Ht|destruct (is_close_op o); auto].
Qed.

(** Connect, open (the driver's callback reports success, then the driver
    emits ['open']), then 200 ms pass without a write. *)
Definition idle_ops : list Iface.op :=
  [Iface.ISerialPort tty 1 None; Iface.IOpen; Iface.IDeliver (CbHandleMod 1) None VUndef;
   Iface.IEmit 0 EOpen 0; Iface.IElapse 200].

Definition timeout_100 : Iface.config :=
  {| Iface.cfg_path := None; Iface.cfg_options := None;
     Iface.cfg_timeout := Some (Iface.TFinite 100) |}.

Definition timeout_infinity : Iface.config :=
  {| Iface.cfg_path := Some tty; Iface.cfg_options := None;
     Iface.cfg_timeout := Some Iface.TInfinity |}.

(** Calls on every method of both objects but [close], with the driver's
    completions, events and probes in between, then a long idle period. *)
Definition busy_ops : list Iface.op :=
  [Iface.ISerialPort tty 1 None; Iface.IOpen; Iface.IDeliver (CbHandleMod 1) None VUndef;
   Iface.IEmit 0 EOpen 0; Iface.IIo OIsOpen; Iface.IIo (OWrite 3); Iface.IIo OPause;
   Iface.IIo OResume; Iface.IIo OFlush; Iface.IIo ODrain; Iface.IIo (OSet 2);
   Iface.IIo (OUpdate 2); Iface.IList; Iface.IPing VUndef; Iface.IAssert;
   Iface.ICtxPing [VStr "hi"]; Iface.ICtxAssert;
   Iface.IProbed 12 "sugo-module-serialport" (fun _ => Check.HResolved (VBool true));
   Iface.IEmit 0 EData 9; Iface.IElapse 1000].

(** C8 (counterexample): with [config.timeout = 100], a port opened and
    left idle for 200 ms is still open: the driver's [close] was never
    called, and no timer is pending. *)
Lemma idle_timeout_counterexample :
  let w := Iface.run timeout_100 timeout_100 idle_ops init_world in
  proms w 1 = Fulfilled VUndef /\ existsb (Nat.eqb 0) (opened w) = true
  /\ closes w = [] /\ timers w = [] /\ now w = 200.
Proof. vm_compute; repeat split. Qed.

(** C8 (amended): the interface file never reads [config.timeout], nor
    anything else of the configuration given to either of its factories:
    every sequence of calls on the two objects they return (every method
    of the module copy, [ping] and [assert] of the interface object) and
    event-loop steps gives the same result whatever the configurations; no
    timer is ever armed, on [open], on [write] or otherwise; and without an
    explicit [close] call no [close] reaches the driver, whatever time
    elapses. *)
Theorem idle_timeout_amended :
  (forall c1 ic1 c2 ic2 ops w, Iface.run c1 ic1 ops w = Iface.run c2 ic2 ops w)
  /\ (forall c ic ops w, timers w = [] ->
        timers (Iface.run c ic ops w) = []
        /\ (forallb (fun o => negb (is_close_op o)) ops = true ->
            closes (Iface.run c ic ops w) = closes w)).
Proof.
  split; [apply iface_run_config|].
  intros c ic ops w Ht; split; [apply iface_run_timers, Ht|apply iface_run_closes, Ht].
Qed.

Lemma idle_timeout_amended_witness :
  timers init_world = []
  /\ forallb (fun o => negb (is_close_op o)) busy_ops = true
  /\ closes (Iface.run timeout_100 timeout_infinity busy_ops init_world) = closes init_world
  /\ timers (Iface.run timeout_100 timeout_infinity busy_ops init_world) = [].
Proof.
  assert (Ht : timers init_world = []) by reflexivity.
  assert (Ho : forallb (fun o => negb (is_close_op o)) busy_ops = true) by reflexivity.
  split; [exact Ht|split; [exact Ho|]].
  destruct (proj2 idle_timeout_amended timeout_100 timeout_infinity busy_ops init_world Ht)
    as [T C].
  exact (conj (C Ho) T).
Defined.

(** * Further properties of the code *)

(** ** [_handle] *)

(** X1: the module's [_handle(resolve, reject)] callback, run by the driver
    on a pending promise: an error calls [reject(err)] and then [resolve()],
    and the promise ends rejected with the error; no error calls only
    [resolve()]. The driver's second argument is ignored, nothing is thrown,
    and no other promise changes. *)
Theorem handle_mod_outcome pid err v w (Hp : proms w pid = Pending) :
  let w' := run_task (callback_body (CbHandleMod pid) err v) w in
  proms w' pid = match err with Some e => Rejected e | None => Fulfilled VUndef end
  /\ (forall q, q <> pid -> proms w' q = proms w q)
  /\ rlog w' = rlog w ++ match err with
                        | Some e => [RReject pid e; RResolve pid VUndef]
                        | None => [RResolve pid VUndef]
                        end
  /\ uncaught w' = uncaught w.
Proof.
  destruct w; cbn in Hp; destruct err as [e|];
    unfold run_task, callback_body, bind, ret, reject, resolve, modify; cbn;
    rewrite Hp; cbn; upd_simpl;
    (repeat split; first [reflexivity | intros q Hq; rewrite ?upd_other by exact Hq; reflexivity
                         | rewrite <- ?app_assoc; reflexivity]).
Qed.

Lemma handle_mod_outcome_witness :
  proms (snd (Fn.write 1 (snd (Fn.SerialPort tty 1 None init_world)))) 1 = Pending
  /\ rlog (run_task (callback_body (CbHandleMod 1) (Some (ErrDriver 2)) VUndef)
             (snd (Fn.write 1 (snd (Fn.SerialPort tty 1 None init_world)))))
     = [RReject 1 (ErrDriver 2); RResolve 1 VUndef].
Proof.
  assert (Hp : proms (snd (Fn.write 1 (snd (Fn.SerialPort tty 1 None init_world)))) 1 = Pending)
    by (vm_compute; reflexivity).
  split; [exact Hp|].
  exact (proj1 (proj2 (proj2 (handle_mod_outcome 1 (Some (ErrDriver 2)) VUndef _ Hp)))).
Defined.

(** X2: the class's [_handle(resolve, reject)] callback
    ([err ? reject(err) : resolve()]) on a pending promise calls exactly one
    of [reject(err)] and [resolve()], and the promise ends rejected with the
    error or fulfilled with [undefined]; no other promise changes. *)
Theorem handle_cls_outcome pid err v w (Hp : proms w pid = Pending) :
  let w' := run_task (callback_body (CbHandleCls pid) err v) w in
  proms w' pid = match err with Some e => Rejected e | None => Fulfilled VUndef end
  /\ (forall q, q <> pid -> proms w' q = proms w q)
  /\ rlog w' = rlog w ++ [match err with Some e => RReject pid e | None => RResolve pid VUndef end]
  /\ uncaught w' = uncaught w.
Proof.
  destruct w; cbn in Hp; destruct err as [e|];
    unfold run_task, callback_body, bind, ret, reject, resolve, modify; cbn;
    rewrite Hp; cbn; upd_simpl;
    (repeat split; first [reflexivity | intros q Hq; rewrite ?upd_other by exact Hq; reflexivity]).
Qed.

Lemma handle_cls_outcome_witness :
  proms (snd (Cls.close (dispatch 0 EOpen 0 (snd (Cls.connect tty 1 None init_world))))) 2
  = Pending
  /\ proms (run_task (callback_body (CbHandleCls 2) None VUndef)
              (snd (Cls.close (dispatch 0 EOpen 0 (snd (Cls.connect tty 1 None init_world))))))
       2 = Fulfilled VUndef.
Proof.
  assert (Hp : proms (snd (Cls.close (dispatch 0 EOpen 0
                 (snd (Cls.connect tty 1 None init_world))))) 2 = Pending)
    by (vm_compute; reflexivity).
  split; [exact Hp|].
  exact (proj1 (handle_cls_outcome 2 None VUndef _ Hp)).
Defined.

(** ** Constructor failure *)

(** X3: when the driver constructor throws, the module's [SerialPort] and
    the class's [connect] return a promise rejected with the thrown error,
    and change nothing else but the log of driver calls: the connection slot,
    the registered listeners, the driver handles and the pending reactions
    are as before. *)
Theorem connect_ctor_throws path options e w :
  (let r := Fn.SerialPort path options (Some e) w in
   fst r = Ok (next_pid w) /\ proms (snd r) (next_pid w) = Rejected e
   /\ slot (snd r) = slot w /\ listeners (snd r) = listeners w
   /\ next_h (snd r) = next_h w /\ reactions (snd r) = reactions w
   /\ dcalls (snd r) = dcalls w ++ [DNew path options])
  /\ (let r := Cls.connect path options (Some e) w in
   fst r = Ok (next_pid w) /\ proms (snd r) (next_pid w) = Rejected e
   /\ slot (snd r) = slot w /\ listeners (snd r) = listeners w
   /\ next_h (snd r) = next_h w /\ reactions (snd r) = reactions w
   /\ dcalls (snd r) = dcalls w ++ [DNew path options]).
Proof. destruct w; cbn; upd_simpl; repeat split. Qed.

(** ** Replacing the port *)

Lemma relay_out_other h h' ev p :
  h <> h' -> relay_out (relay_listeners h') h ev p = [].
Proof.
  intros Hh; assert (E : Nat.eqb h h' = false) by (apply Nat.eqb_neq; exact Hh).
  unfold relay_out, relay_listeners; cbn; rewrite E; reflexivity.
Qed.

(** X4: calling the module's [SerialPort] a second time replaces the port
    kept in [_serialport] by the new one without closing the first (the only
    driver calls are the two constructions), and the listeners piped from
    the first port stay registered: whatever events either port emits
    later, each is republished once, in order, on the pipe. *)
Theorem SerialPort_twice_keeps_old_relay (w : world) (Hfresh : fresh_handle w)
    p1 o1 p2 o2 (tr : list (event * payload)) :
  let h0 := next_h w in
  let m2 := snd (Fn.SerialPort p2 o2 None (snd (Fn.SerialPort p1 o1 None w))) in
  slot m2 = Some (S h0)
  /\ dcalls m2 = dcalls w ++ [DNew p1 o1; DNew p2 o2]
  /\ surface (dispatch_all h0 tr m2) = surface w ++ tr
  /\ surface (dispatch_all (S h0) tr m2) = surface w ++ tr.
Proof.
  cbv zeta.
  destruct (fn_connect_world p1 o1 w) as (L1 & S1 & _ & H1).
  destruct (fn_connect_world p2 o2 (snd (Fn.SerialPort p1 o1 None w))) as (L2 & S2 & Sl2 & _).
  rewrite H1 in L2, Sl2.
  split; [exact Sl2|split; [destruct w; cbn; rewrite <- app_assoc; reflexivity|split]];
    rewrite (proj1 (dispatch_all_surface _ _ _)), S2, S1, L2, L1, relays_of_trace; auto;
    intros ev p; rewrite !relay_out_app.
  - rewrite (relay_out_fresh (listeners w)) by exact Hfresh.
    rewrite relay_out_relays, relay_out_other by lia; reflexivity.
  - rewrite (relay_out_fresh (listeners w))
      by (intros l Hl; specialize (Hfresh l Hl); lia).
    rewrite relay_out_relays, relay_out_other by lia; reflexivity.
Qed.

Lemma SerialPort_twice_keeps_old_relay_witness :
  fresh_handle init_world
  /\ surface (dispatch_all 0 [(EData, 7); (EClose, 0)]
       (snd (Fn.SerialPort "/dev/ttyS1" 2 None (snd (Fn.SerialPort tty 1 None init_world)))))
     = [(EData, 7); (EClose, 0)].
Proof.
  assert (H : fresh_handle init_world) by (intros l []).
  split; [exact H|].
  exact (proj1 (proj2 (proj2 (SerialPort_twice_keeps_old_relay init_world H tty 1
                                "/dev/ttyS1" 2 [(EData, 7); (EClose, 0)])))).
Defined.

(** ** I/O on a stored port *)

(** Running [m] makes the single driver call [c] and returns a promise in
    state [s]. *)
Definition call_made (m : M nat) (w : world) (c : dcall) (s : settle) : Prop :=
  dcalls (snd (m w)) = dcalls w ++ [c] /\ fst (outcome m w) = s.

(** X5: with a port stored in [_serialport], each method of the module
    makes exactly one call on that port, passing its argument through:
    [open], [write], [flush], [drain], [close], [set] and [update] hand the
    driver a [_handle] callback and return a promise that is still pending;
    [pause] and [resume] resolve to [undefined] at once; [isOpen] resolves to
    what the port's [isOpen()] returns. *)
Theorem fn_io_calls_port (w : world) (h : nat) (Hs : slot w = Some h) d x :
  let pid := next_pid w in
  call_made Fn.open w (DOpen h (CbHandleMod pid)) Pending
  /\ call_made (Fn.write d) w (DWrite h d (CbHandleMod pid)) Pending
  /\ call_made Fn.flush w (DFlush h (CbHandleMod pid)) Pending
  /\ call_made Fn.drain w (DDrain h (CbHandleMod pid)) Pending
  /\ call_made Fn.close w (DClose h (CbHandleMod pid)) Pending
  /\ call_made (Fn.set x) w (DSet h x (CbHandleMod pid)) Pending
  /\ call_made (Fn.update x) w (DUpdate h x (CbHandleMod pid)) Pending
  /\ call_made Fn.pause w (DPause h) (Fulfilled VUndef)
  /\ call_made Fn.resume w (DResume h) (Fulfilled VUndef)
  /\ call_made Fn.isOpen w (DIsOpen h) (Fulfilled (VBool (existsb (Nat.eqb h) (opened w)))).
Proof.
  destruct w; cbn in Hs; subst; unfold call_made, outcome; cbn; upd_simpl; repeat split.
Qed.

Lemma fn_io_calls_port_witness :
  slot (snd (Fn.SerialPort tty 1 None init_world)) = Some 0
  /\ call_made (Fn.write 9) (snd (Fn.SerialPort tty 1 None init_world))
       (DWrite 0 9 (CbHandleMod 1)) Pending.
Proof.
  assert (Hs : slot (snd (Fn.SerialPort tty 1 None init_world)) = Some 0) by reflexivity.
  split; [exact Hs|].
  exact (proj1 (proj2 (fn_io_calls_port _ 0 Hs 9 0))).
Defined.

(** X6: the same for the class once [_driver] is set, through the
    [driver] getter: one call on the stored driver per method, a pending
    promise for the callback-based methods, [undefined] for [pause] and
    [resume], and the driver's [isOpen()] for [isOpen]. *)
Theorem cls_io_calls_driver (w : world) (h : nat) (Hs : slot w = Some h) d x :
  let pid := next_pid w in
  call_made Cls.open w (DOpen h (CbHandleCls pid)) Pending
  /\ call_made (Cls.write d) w (DWrite h d (CbHandleCls pid)) Pending
  /\ call_made Cls.flush w (DFlush h (CbHandleCls pid)) Pending
  /\ call_made Cls.drain w (DDrain h (CbHandleCls pid)) Pending
  /\ call_made Cls.close w (DClose h (CbHandleCls pid)) Pending
  /\ call_made (Cls.set x) w (DSet h x (CbHandleCls pid)) Pending
  /\ call_made (Cls.update x) w (DUpdate h x (CbHandleCls pid)) Pending
  /\ call_made Cls.pause w (DPause h) (Fulfilled VUndef)
  /\ call_made Cls.resume w (DResume h) (Fulfilled VUndef)
  /\ call_made Cls.isOpen w (DIsOpen h) (Fulfilled (VBool (existsb (Nat.eqb h) (opened w)))).
Proof.
  destruct w; cbn in Hs; subst; unfold call_made, outcome; cbn; upd_simpl; repeat split.
Qed.

Lemma cls_io_calls_driver_witness :
  slot (dispatch 0 EOpen 0 (snd (Cls.connect tty 1 None init_world))) = Some 0
  /\ call_made Cls.isOpen (dispatch 0 EOpen 0 (snd (Cls.connect tty 1 None init_world)))
       (DIsOpen 0) (Fulfilled (VBool true)).
Proof.
  assert (Hs : slot (dispatch 0 EOpen 0 (snd (Cls.connect tty 1 None init_world))) = Some 0)
    by (vm_compute; reflexivity).
  split; [exact Hs|].
  destruct (cls_io_calls_driver _ 0 Hs 0 0) as (_ & _ & _ & _ & _ & _ & _ & _ & _ & K).
  exact K.
Defined.

(** ** The class's [connect] after it settles *)

Lemma dispatch_all_app h tr1 tr2 w :
  dispatch_all h (tr1 ++ tr2) w = dispatch_all h tr2 (dispatch_all h tr1 w).
Proof.
  revert w; induction tr1 as [|[ev p] tr1 IH]; intros w; [reflexivity|].
  cbn; apply IH.
Qed.

Lemma phase_after_app ph tr1 tr2 :
  phase_after ph (tr1 ++ tr2) = phase_after (phase_after ph tr1) tr2.
Proof.
  revert ph; induction tr1 as [|[ev p] tr1 IH]; intros ph; [reflexivity|]; cbn; apply IH.
Qed.

Lemma phase_after_opened tr : phase_after Opened tr = Opened.
Proof. induction tr as [|[ev p] tr IH]; [reflexivity|]; cbn; exact IH. Qed.

Lemma phase_after_failed p tr : phase_after (Failed p) tr = Failed p.
Proof. induction tr as [|[ev q] tr IH]; [reflexivity|]; cbn; exact IH. Qed.

(** X7: once the class's [connect] promise has settled, nothing the driver
    emits afterwards changes it: after a resolution, [_driver] stays the
    connected driver and the promise stays fulfilled, also after a later
    ['error'] or ['close']; after a rejection, [_driver] keeps its former
    value and the promise stays rejected, also after a later ['open']. *)
Theorem connect_outcome_final (w : world) (Hwf : conn_wf w) path options tr1 tr2 :
  let w1 := dispatch_all (next_h w) tr1 (snd (Cls.connect path options None w)) in
  let w2 := dispatch_all (next_h w) tr2 w1 in
  (proms w1 (next_pid w) = Fulfilled VUndef ->
     proms w2 (next_pid w) = Fulfilled VUndef /\ slot w2 = Some (next_h w))
  /\ (forall e, proms w1 (next_pid w) = Rejected e ->
     proms w2 (next_pid w) = Rejected e /\ slot w2 = slot w).
Proof.
  cbv zeta; rewrite <- dispatch_all_app.
  pose proof (conn_inv_trace w _ Waiting tr1 Hwf (conn_inv_start w path options)) as (_ & _ & I1).
  pose proof (conn_inv_trace w _ Waiting (tr1 ++ tr2) Hwf (conn_inv_start w path options))
    as (_ & _ & I2).
  rewrite phase_after_app in I2.
  split; [intros Hf | intros e Hr];
    destruct (phase_after Waiting tr1) as [| |p];
    destruct I1 as (_ & A2 & _); try congruence;
    rewrite ?phase_after_opened, ?phase_after_failed in I2; cbv beta iota zeta in I2;
    destruct I2 as (_ & B2 & _ & B4); split; congruence.
Qed.

Lemma connect_outcome_final_witness :
  conn_wf init_world
  /\ proms (dispatch_all 0 [(EError, 3)] (snd (Cls.connect tty 1 None init_world))) 0
     = Rejected (ErrDriver 3)
  /\ slot (dispatch_all 0 [(EOpen, 0); (EData, 1)]
        (dispatch_all 0 [(EError, 3)] (snd (Cls.connect tty 1 None init_world)))) = None.
Proof.
  assert (H : conn_wf init_world) by (split; [intros l []| intros r []]).
  assert (Hr : proms (dispatch_all 0 [(EError, 3)] (snd (Cls.connect tty 1 None init_world))) 0
               = Rejected (ErrDriver 3)) by (vm_compute; reflexivity).
  split; [exact H|split; [exact Hr|]].
  exact (proj2 (proj2 (connect_outcome_final init_world H tty 1 [(EError, 3)]
                         [(EOpen, 0); (EData, 1)]) _ Hr)).
Defined.

(** ** [assert ()] *)

(** [hasBin] found the binary: its promise resolved to a truthy value. *)
Definition passes (hasBin : string -> Check.verdict) (b : string) : bool :=
  match hasBin b with Check.HResolved ok => truthy ok | Check.HRejected _ => false end.

(** X8: the [assert] generator probes the binaries in order and stops at
    the first one that fails: it resolves to [true] when every probe
    resolves truthy, having probed all of them; it rejects with the error
    ["[name] Command not found: bin"] for the first binary whose probe
    resolves falsy, and with the probe's own error for the first probe that
    rejects, probing none after it. It never resolves to [false]. With the
    source's [bins = ['node']], the outcome is that of the single probe of
    ['node']. *)
Theorem assertAck_probes name hasBin :
  (forall bins, forallb (passes hasBin) bins = true ->
     Check.assertAck name hasBin bins = (bins, Check.AResolved true))
  /\ (forall pre b post ok, forallb (passes hasBin) pre = true ->
        hasBin b = Check.HResolved ok -> truthy ok = false ->
        Check.assertAck name hasBin (pre ++ b :: post)
        = (pre ++ [b], Check.ANotFound (Check.not_found name b)))
  /\ (forall pre b post e, forallb (passes hasBin) pre = true ->
        hasBin b = Check.HRejected e ->
        Check.assertAck name hasBin (pre ++ b :: post) = (pre ++ [b], Check.AFailed e))
  /\ (forall bins, snd (Check.assertAck name hasBin bins) <> Check.AResolved false)
  /\ Check.assert name hasBin
     = match hasBin "node" with
       | Check.HResolved ok =>
           if truthy ok then (["node"], Check.AResolved true)
           else (["node"], Check.ANotFound ("[" ++ name ++ "] Command not found: node"))
       | Check.HRejected e => (["node"], Check.AFailed e)
       end.
Proof.
  split; [|split; [|split; [|split]]].
  - induction bins as [|b bins IH]; intros H; [reflexivity|].
    cbn in H |- *; apply andb_prop in H as [Hb H]; unfold passes in Hb.
    destruct (hasBin b) as [ok|e]; [|discriminate].
    rewrite Hb, IH by exact H; reflexivity.
  - induction pre as [|x pre IH]; intros b post ok H Hb Hok; cbn.
    + rewrite Hb, Hok; reflexivity.
    + cbn in H; apply andb_prop in H as [Hx H]; unfold passes in Hx.
      destruct (hasBin x) as [okx|e]; [|discriminate].
      rewrite Hx, (IH b post ok H Hb Hok); reflexivity.
  - induction pre as [|x pre IH]; intros b post e H Hb; cbn.
    + rewrite Hb; reflexivity.
    + cbn in H; apply andb_prop in H as [Hx H]; unfold passes in Hx.
      destruct (hasBin x) as [okx|e']; [|discriminate].
      rewrite Hx, (IH b post e H Hb); reflexivity.
  - induction bins as [|b bins IH]; cbn; [discriminate|].
    destruct (hasBin b) as [ok|e]; [|discriminate].
    destruct (truthy ok); [|discriminate].
    destruct (Check.assertAck name hasBin bins) as [probed r]; exact IH.
  - unfold Check.assert, Check.bins; cbn.
    destruct (hasBin "node") as [ok|e]; [|reflexivity].
    destruct (truthy ok); reflexivity.
Qed.

Definition probe_demo (b : string) : Check.verdict :=
  if String.eqb b "node" then Check.HResolved (VBool true) else Check.HResolved VNull.

Lemma assertAck_probes_witness :
  forallb (passes probe_demo) ["node"] = true
  /\ probe_demo "make" = Check.HResolved VNull /\ truthy VNull = false
  /\ Check.assertAck "sugo-module-serialport" probe_demo ["node"; "make"; "gcc"]
     = (["node"; "make"], Check.ANotFound "[sugo-module-serialport] Command not found: make").
Proof.
  assert (H1 : forallb (passes probe_demo) ["node"] = true) by reflexivity.
  assert (H2 : probe_demo "make" = Check.HResolved VNull) by reflexivity.
  assert (H3 : truthy VNull = false) by reflexivity.
  split; [exact H1|split; [exact H2|split; [exact H3|]]].
  exact (proj1 (proj2 (assertAck_probes "sugo-module-serialport" probe_demo))
           ["node"] "make" ["gcc"] VNull H1 H2 H3).
Defined.

(** ** [list ()] in any state *)

(** X9: [list] needs no connection and leaves the connection slot alone,
    whatever the state: it makes one enumeration call, and its promise is
    pending until the driver calls back. A successful enumeration fulfils it
    with the driver's port list unchanged, in both variants; an enumeration
    error rejects the class's promise with the error, while the module's
    callback throws it to the event loop and its promise stays pending. *)
Theorem list_any_state w ports e :
  let pid := next_pid w in
  call_made Fn.list w (DList (CbListMod pid)) Pending
  /\ slot (snd (Fn.list w)) = slot w
  /\ proms (run_task (callback_body (CbListMod pid) None ports) (snd (Fn.list w))) pid
     = Fulfilled ports
  /\ proms (run_task (callback_body (CbListMod pid) (Some e) ports) (snd (Fn.list w))) pid
     = Pending
  /\ uncaught (run_task (callback_body (CbListMod pid) (Some e) ports) (snd (Fn.list w)))
     = uncaught w ++ [e]
  /\ call_made Cls.list w (DList (CbListCls pid)) Pending
  /\ slot (snd (Cls.list w)) = slot w
  /\ proms (run_task (callback_body (CbListCls pid) None ports) (snd (Cls.list w))) pid
     = Fulfilled ports
  /\ proms (run_task (callback_body (CbListCls pid) (Some e) ports) (snd (Cls.list w))) pid
     = Rejected e.
Proof. destruct w; unfold call_made, outcome; cbn; upd_simpl; repeat split. Qed.

(** ** The module's [SerialPort] promise under driver events *)

Definition handler_pid (hd : handler) : option nat :=
  match hd with HRelay _ => None | HResolve q | HReject q => Some q end.

Definition reaction_outer (r : nat * reaction) : nat :=
  let '(_, RCoConnect outer _) := r in outer.

(** No listener and no pending continuation can settle promise [pid]. *)
Definition untouched (pid : nat) (w : world) : Prop :=
  (forall l, In l (listeners w) -> handler_pid (snd l) <> Some pid)
  /\ (forall r, In r (reactions w) -> reaction_outer r <> pid).

(** Every promise a listener or a continuation may settle is already
    allocated. *)
Definition pids_below (w : world) : Prop :=
  (forall l q, In l (listeners w) -> handler_pid (snd l) = Some q -> q < next_pid w)
  /\ (forall r, In r (reactions w) -> reaction_outer r < next_pid w).

Lemma resolve_at q v pid w : q <> pid -> proms (snd (resolve q v w)) pid = proms w pid.
Proof.
  intros Hq; unfold resolve, modify; cbn.
  destruct (is_settled _); cbn; [reflexivity|apply upd_other; congruence].
Qed.

Lemma reject_at q e pid w : q <> pid -> proms (snd (reject q e w)) pid = proms w pid.
Proof.
  intros Hq; unfold reject, modify; cbn.
  destruct (is_settled _); cbn; [reflexivity|apply upd_other; congruence].
Qed.

Lemma run_handler_at hd p pid w :
  handler_pid hd <> Some pid -> proms (snd (run_handler hd p w)) pid = proms w pid.
Proof.
  intros H; destruct hd; cbn [run_handler handler_pid] in *;
    [reflexivity | apply resolve_at | apply reject_at]; congruence.
Qed.

Lemma run_listeners_at ls h ev p pid w :
  (forall l, In l ls -> handler_pid (snd l) <> Some pid) ->
  proms (snd (run_listeners ls h ev p w)) pid = proms w pid.
Proof.
  revert w; induction ls as [|[[h' ev'] hd] ls IH]; intros w H; [reflexivity|].
  cbn [run_listeners]; unfold bind.
  assert (H' : forall l, In l ls -> handler_pid (snd l) <> Some pid)
    by (intros l Hl; apply H; right; exact Hl).
  destruct (Nat.eqb h h' && event_beq ev ev').
  - pose proof (run_handler_ok hd p w) as Hok.
    pose proof (run_handler_at hd p pid w (H _ (or_introl eq_refl))) as Hat.
    destruct (run_handler hd p w) as [r w']; cbn in Hok, Hat; subst r.
    rewrite IH; auto.
  - cbn [ret]; apply IH; exact H'.
Qed.

Lemma driver_emit_at h ev p pid w :
  (forall l, In l (listeners w) -> handler_pid (snd l) <> Some pid) ->
  proms (snd (driver_emit h ev p w)) pid = proms w pid
  /\ reactions (snd (driver_emit h ev p w)) = reactions w.
Proof.
  intros H; unfold driver_emit, bind, gets.
  destruct ev; cbn [driver_state]; unfold modify, ret; cbn [fst snd];
    (split; [etransitivity; [apply run_listeners_at; intros l Hl; apply H; exact Hl
                            | reflexivity]
            | exact (proj2 (proj2 (proj2 (proj2 (run_listeners_spec _ h _ p _)))))]).
Qed.

Lemma run_reaction_at r pid w :
  reaction_outer r <> pid ->
  proms (snd (run_reaction r w)) pid = proms w pid
  /\ reactions (snd (run_reaction r w)) = reactions w.
Proof.
  intros H; destruct r as [i [o h]]; cbn in H; unfold run_reaction, bind, gets; cbn.
  destruct (proms w i); cbn; [auto| |];
    unfold set_slot, modify, resolve, reject; cbn;
    destruct (is_settled _); cbn; split; auto; apply upd_other; congruence.
Qed.

Lemma for_each_reaction_at rs pid w :
  (forall r, In r rs -> reaction_outer r <> pid) ->
  proms (snd (for_each run_reaction rs w)) pid = proms w pid
  /\ reactions (snd (for_each run_reaction rs w)) = reactions w.
Proof.
  revert w; induction rs as [|r rs IH]; intros w H; cbn; [auto|].
  unfold bind.
  pose proof (run_reaction_at r pid w (H r (or_introl eq_refl))) as [P R].
  destruct (run_reaction r w) as [[u|e] w']; cbn in P, R |- *; [|auto].
  destruct (IH w') as [P' R']; [intros; apply H; right; auto|]; split; congruence.
Qed.

Lemma run_reactions_at pid w :
  (forall r, In r (reactions w) -> reaction_outer r <> pid) ->
  proms (run_reactions w) pid = proms w pid
  /\ (forall r, In r (reactions (run_reactions w)) -> In r (reactions w))
  /\ listeners (run_reactions w) = listeners w.
Proof.
  intros H; split; [|split].
  - unfold run_reactions, run_task.
    match goal with |- context [for_each run_reaction ?rs ?w1] =>
      assert (Hr : forall r, In r rs -> reaction_outer r <> pid)
        by (intros r Hr; apply filter_In in Hr; apply H, Hr);
      destruct (for_each_reaction_at rs pid w1 Hr) as [P _];
      destruct (for_each run_reaction rs w1) as [[u|e] w'] end; cbn in *; exact P.
  - intros r Hr; unfold run_reactions, run_task in Hr.
    match type of Hr with context [for_each run_reaction ?rs ?w1] =>
      assert (Hrs : forall r, In r rs -> reaction_outer r <> pid)
        by (intros r' Hr'; apply filter_In in Hr'; apply H, Hr');
      destruct (for_each_reaction_at rs pid w1 Hrs) as [_ R];
      destruct (for_each run_reaction rs w1) as [[u|e] w'] end; cbn in *;
      rewrite R in Hr; cbn in Hr; apply filter_In in Hr; apply Hr.
  - apply run_reactions_frame; field_tac.
Qed.

Lemma dispatch_at h ev p pid w :
  untouched pid w ->
  proms (dispatch h ev p w) pid = proms w pid /\ untouched pid (dispatch h ev p w).
Proof.
  intros [HL HR]; unfold dispatch.
  pose proof (driver_emit_at h ev p pid w HL) as [P R].
  destruct (driver_emit_spec h ev p w) as (Ok & _ & L).
  assert (E : run_task (driver_emit h ev p) w = snd (driver_emit h ev p w))
    by (unfold run_task; destruct (driver_emit h ev p w) as [r w']; cbn in Ok; subst r;
        reflexivity).
  rewrite E.
  destruct (run_reactions_at pid (snd (driver_emit h ev p w))) as (P' & R' & L');
    [rewrite R; exact HR|].
  split; [congruence|split].
  - rewrite L', L; exact HL.
  - intros r Hr; apply HR; rewrite <- R; apply R', Hr.
Qed.

Lemma dispatch_all_at h tr pid w :
  untouched pid w -> proms (dispatch_all h tr w) pid = proms w pid.
Proof.
  revert w; induction tr as [|[ev p] tr IH]; intros w H; [reflexivity|].
  cbn; destruct (dispatch_at h ev p pid w H) as [P U]; rewrite IH by exact U; exact P.
Qed.

(** X10: the promise of the module's [SerialPort] is never settled by the
    driver: whatever events the driver it built (or any other driver)
    emits afterwards, ['open'] and ['error'] included, the promise stays
    pending. *)
Theorem SerialPort_never_settles (w : world) (Hb : pids_below w) path options h tr :
  proms (dispatch_all h tr (snd (Fn.SerialPort path options None w))) (next_pid w) = Pending.
Proof.
  destruct (fn_connect_world path options w) as (L & _).
  rewrite dispatch_all_at.
  - destruct w; cbn; upd_simpl; reflexivity.
  - destruct Hb as [HL HR]; split.
    + rewrite L; intros l Hl Hq; apply in_app_or in Hl as [Hl|Hl].
      * specialize (HL l (next_pid w) Hl Hq); lia.
      * unfold relay_listeners in Hl; apply in_map_iff in Hl as (ev & <- & _).
        discriminate.
    + assert (E : reactions (snd (Fn.SerialPort path options None w)) = reactions w)
        by (destruct w; reflexivity).
      rewrite E; intros r Hr Hq; specialize (HR r Hr); lia.
Qed.

Lemma SerialPort_never_settles_witness :
  pids_below init_world
  /\ proms (dispatch_all 0 [(EOpen, 0); (EError, 4); (EOpen, 0)]
              (snd (Fn.SerialPort tty 1 None init_world))) 0 = Pending.
Proof.
  assert (H : pids_below init_world) by (split; [intros l q []| intros r []]).
  split; [exact H|].
  exact (SerialPort_never_settles init_world H tty 1 0 [(EOpen, 0); (EError, 4); (EOpen, 0)]).
Defined.

End SerialSpec.
